(** * xdecoder: the faster decoder (faster-decoder.h)

    A shallow embedding of the token-passing beam search declared in
    [faster-decoder.h].

    Conventions.
    - [float] and [double] costs are exact rationals ([Q]); rounding, NaN and
      infinities are outside the model.  Comparisons are the strict and
      non-strict orders of [Q].
    - [int32_t] quantities are integers ([Z]); signed overflow is undefined in
      C++ and is not modelled.
    - A [Token*] is an address into a finite heap; [NULL] is [None].
    - Whatever the header only declares (bodies in the .cc file, [fst.h],
      [decodable.h], [hash-list.h], [object-pool.h]) is modelled from the
      written specification, and each such definition says so. *)

From Stdlib Require Import ZArith QArith Qround Lia Lqa.
From stdpp Require Import base option list gmap sorting.

(* ===================================================================== *)
(** ** Arcs, tokens and the token heap *)
(* ===================================================================== *)

(** Modelled from the spec: [fst.h] is not part of the sources.  A transition
    carries a destination state, an output label, a graph weight and a flag
    telling whether it consumes a frame.  The header itself only reads
    [arc.weight]. *)
Record Arc := mkArc {
  nextstate : Z;
  olabel : Z;
  weight : Q;
  emitting : bool
}.

Definition addr := nat.

(** [class Token]: [arc_], [prev_], [ref_count_], [cost_]. *)
Record Token := mkToken {
  arc_ : Arc;
  prev_ : option addr;
  ref_count_ : Z;
  cost_ : Q
}.

Definition set_arc (a : Arc) (t : Token) : Token :=
  mkToken a (prev_ t) (ref_count_ t) (cost_ t).
Definition set_prev (p : option addr) (t : Token) : Token :=
  mkToken (arc_ t) p (ref_count_ t) (cost_ t).
Definition set_ref_count (n : Z) (t : Token) : Token :=
  mkToken (arc_ t) (prev_ t) n (cost_ t).
Definition incr_ref_count (t : Token) : Token :=
  mkToken (arc_ t) (prev_ t) (ref_count_ t + 1) (cost_ t).
Definition set_cost (c : Q) (t : Token) : Token :=
  mkToken (arc_ t) (prev_ t) (ref_count_ t) c.

(** A write through a pointer: fails ([None]) when the pointer is not live. *)
Definition update (a : addr) (f : Token → Token) (h : gmap addr Token)
  : option (gmap addr Token) :=
  t ← h !! a; Some (<[a := f t]> h).

(** [Token::Init(const Arc &arc, float ac_cost, Token *prev)], statement by
    statement, on the token stored at [this]. *)
Definition Token_Init (this : addr) (arc : Arc) (ac_cost : Q)
    (prev : option addr) (h : gmap addr Token) : option (gmap addr Token) :=
  h ← update this (set_arc arc) h;
  h ← update this (set_prev prev) h;
  h ← update this (set_ref_count 1) h;
  match prev with
  | Some p =>
      h ← update p incr_ref_count h;
      tp ← h !! p;
      update this (set_cost (cost_ tp + weight arc + ac_cost)%Q) h
  | None =>
      update this (set_cost (weight arc + ac_cost)%Q) h
  end.

(** [Token::Init(const Arc &arc, Token *prev)]: the overload without an
    acoustic cost, used when no frame is consumed. *)
Definition Token_Init_noac (this : addr) (arc : Arc)
    (prev : option addr) (h : gmap addr Token) : option (gmap addr Token) :=
  h ← update this (set_arc arc) h;
  h ← update this (set_prev prev) h;
  h ← update this (set_ref_count 1) h;
  match prev with
  | Some p =>
      h ← update p incr_ref_count h;
      tp ← h !! p;
      update this (set_cost (cost_ tp + weight arc)%Q) h
  | None =>
      update this (set_cost (weight arc)%Q) h
  end.

(** The constructors [Token(arc, ac_cost, prev)] and [Token(arc, prev)] run
    [Init] on storage that held no token before; [raw] is whatever the storage
    contained. *)
Definition Token_new (raw : Token) (this : addr) (arc : Arc) (ac_cost : Q)
    (prev : option addr) (h : gmap addr Token) : option (gmap addr Token) :=
  match h !! this with
  | Some _ => None
  | None => Token_Init this arc ac_cost prev (<[this := raw]> h)
  end.

Definition Token_new_noac (raw : Token) (this : addr) (arc : Arc)
    (prev : option addr) (h : gmap addr Token) : option (gmap addr Token) :=
  match h !! this with
  | Some _ => None
  | None => Token_Init_noac this arc prev (<[this := raw]> h)
  end.

(** [Token::operator<]: [return cost_ > other.cost_;] *)
Definition Qgt_bool (x y : Q) : bool :=
  match (x ?= y)%Q with Gt => true | _ => false end.

Definition Token_lt (t other : Token) : bool :=
  Qgt_bool (cost_ t) (cost_ other).

(** The heap together with the pool's free list.

    Modelled from the spec: [object-pool.h] is not part of the sources.
    [IObjectPool<Token>::Delete] recycles a record: it leaves the heap and its
    address joins the free list. *)
Record Store := mkStore {
  heap : gmap addr Token;
  pool : list addr
}.

Definition pool_Delete (tok : addr) (st : Store) : Store :=
  mkStore (delete tok (heap st)) (tok :: pool st).

Inductive outcome (A : Type) : Type :=
  | Done (a : A)
  | InvalidPointer
  | CheckFailed
  | OutOfFuel.
Arguments Done {A} a.
Arguments InvalidPointer {A}.
Arguments CheckFailed {A}.
Arguments OutOfFuel {A}.

(** [Token::TokenDelete(Token *tok, IObjectPool<Token> *token_pool)]: one
    unit of fuel per evaluation of the loop condition. *)
Fixpoint TokenDelete_loop (fuel : nat) (tok : addr) (st : Store)
  : outcome Store :=
  match fuel with
  | O => OutOfFuel
  | S fuel' =>
      match heap st !! tok with
      | None => InvalidPointer
      | Some t =>
          let n := (ref_count_ t - 1)%Z in
          let st1 := mkStore (<[tok := set_ref_count n t]> (heap st)) (pool st) in
          if (n =? 0)%Z then
            let prev := prev_ t in
            let st2 := pool_Delete tok st1 in
            match prev with
            | None => Done st2
            | Some p => TokenDelete_loop fuel' p st2
            end
          else if (0 <? n)%Z then Done st1 else CheckFailed
      end
  end.

(** Every pass through the loop body removes a record from the heap, so
    [size heap + 1] evaluations of the condition are enough. *)
Definition TokenDelete (tok : addr) (st : Store) : outcome Store :=
  TokenDelete_loop (S (size (heap st))) tok st.

(* ===================================================================== *)
(** ** Configuration *)
(* ===================================================================== *)

(** [struct FasterDecoderOptions]. *)
Record FasterDecoderOptions := mkOptions {
  beam : Q;
  max_active : Z;
  min_active : Z;
  beam_delta : Q;
  hash_ratio : Q
}.

Definition INT32_MAX : Z := 2147483647.

(** The default constructor of [FasterDecoderOptions]. *)
Definition default_options : FasterDecoderOptions :=
  mkOptions 16 INT32_MAX 20 (1#2) 2.

(* ===================================================================== *)
(** ** Deciding the order on costs *)
(* ===================================================================== *)

#[global] Instance Qle_dec (x y : Q) : Decision (x <= y)%Q.
Proof.
  destruct (Qle_bool x y) eqn:E.
  - left. apply Qle_bool_iff. exact E.
  - right. intros H. apply Qle_bool_iff in H. congruence.
Defined.

#[global] Instance Qlt_dec (x y : Q) : Decision (x < y)%Q.
Proof.
  destruct (Qle_bool y x) eqn:E.
  - right. intros H. apply Qle_bool_iff in E. apply (Qlt_not_le _ _ H E).
  - left. apply Qnot_le_lt. intros H. apply Qle_bool_iff in H. congruence.
Defined.

(* ===================================================================== *)
(** ** The search *)
(* ===================================================================== *)

(** Modelled from the spec: the bodies of the search ([faster-decoder.cc]) are
    not part of the sources.  In the search a hypothesis is the record of the
    data model: the transition taken, the predecessor (none for a path root)
    and the cumulative cost.  Its live-reference count belongs to the storage
    discipline, which is modelled on the token heap above; [hyp_of] below
    reads a heap token as such a hypothesis. *)
#[local] Unset Elimination Schemes.
Inductive Hyp : Type :=
  mkHyp (transition : Arc) (predecessor : option Hyp) (cumulativeCost : Q).
#[local] Set Elimination Schemes.

Definition transition (h : Hyp) : Arc := let (a, _, _) := h in a.
Definition predecessor (h : Hyp) : option Hyp := let (_, p, _) := h in p.
Definition cumulativeCost (h : Hyp) : Q := let (_, _, c) := h in c.

(** Modelled from the spec: [create(transition, predecessor, acousticCost?)].
    The cost follows [Token::Init]: the predecessor's cost, plus the graph
    weight, plus the acoustic cost when the step consumed a frame. *)
Definition create (tr : Arc) (pred : option Hyp) (acousticCost : option Q) : Hyp :=
  mkHyp tr pred
    match pred, acousticCost with
    | Some p, Some ac => (cumulativeCost p + weight tr + ac)%Q
    | Some p, None => (cumulativeCost p + weight tr)%Q
    | None, Some ac => (weight tr + ac)%Q
    | None, None => weight tr
    end.

(** Modelled from the spec: [fst.h] is not part of the sources.  The graph
    gives a start state and, per state, the outgoing transitions and an
    optional final cost; a state is an index into [states]. *)
Record Fst := mkFst {
  Start : Z;
  states : list (list Arc * option Q)
}.

Definition state_of (g : Fst) (s : Z) : option (list Arc * option Q) :=
  if (s <? 0)%Z then None else states g !! Z.to_nat s.

Definition arcs_of (g : Fst) (s : Z) : list Arc :=
  match state_of g s with Some (arcs, _) => arcs | None => [] end.

Definition Final (g : Fst) (s : Z) : option Q :=
  match state_of g s with Some (_, f) => f | None => None end.

(** Modelled from the spec: [decodable.h] is not part of the sources.  The
    scoring collaborator serves an acoustic cost per frame index and
    transition, for the frames that are ready. *)
Record Decodable := mkDecodable {
  NumFramesReady : Z;
  AcousticCost : Z → Arc → Q
}.

(** Modelled from the spec: [hash-list.h] is not part of the sources.  One
    generation of the active-state index ([toks_]) is the list of its
    entries, a state identifier paired with a hypothesis. *)
Definition Elem : Type := Z * Hyp.

Fixpoint lookup_state (s : Z) (toks : list Elem) : option Hyp :=
  match toks with
  | [] => None
  | (s', h) :: rest => if decide (s' = s) then Some h else lookup_state s rest
  end.

Fixpoint replace_state (s : Z) (h : Hyp) (toks : list Elem) : list Elem :=
  match toks with
  | [] => []
  | (s', h') :: rest =>
      if decide (s' = s) then (s', h) :: rest
      else (s', h') :: replace_state s h rest
  end.

(** Modelled from the spec: [upsert(state, hypothesis)] inserts if absent,
    otherwise replaces the entry's hypothesis only if the new cumulative cost
    is strictly lower. *)
Definition upsert (s : Z) (h : Hyp) (toks : list Elem) : list Elem :=
  match lookup_state s toks with
  | None => (s, h) :: toks
  | Some old =>
      if decide (cumulativeCost h < cumulativeCost old)%Q
      then replace_state s h toks
      else toks
  end.

(** Modelled from the spec: [drain()] hands every entry of the generation to
    the caller and leaves the index empty. *)
Definition drain (toks : list Elem) : list Elem * list Elem := (toks, []).

(** [class FasterDecoder]: the members that persist between calls.  [queue_]
    and [tmp_array_] are scratch space, empty between calls. *)
Record FasterDecoder := mkDecoder {
  fst_ : Fst;
  config_ : FasterDecoderOptions;
  toks_ : list Elem;
  num_frames_decoded_ : Z
}.

(** [void SetOptions(const FasterDecoderOptions &config) { config_ = config; }] *)
Definition SetOptions (config : FasterDecoderOptions) (d : FasterDecoder)
  : FasterDecoder :=
  mkDecoder (fst_ d) config (toks_ d) (num_frames_decoded_ d).

(** [int32_t NumFramesDecoded() const { return num_frames_decoded_; }] *)
Definition NumFramesDecoded (d : FasterDecoder) : Z := num_frames_decoded_ d.

(** The error taxonomy's [ConfigurationInvalid]. *)
Definition ConfigurationInvalid (c : FasterDecoderOptions) : Prop :=
  (max_active c < min_active c)%Z ∨ (beam c <= 0)%Q ∨ (hash_ratio c <= 0)%Q.

#[global] Instance outcome_bind : MBind outcome := λ A B f m,
  match m with
  | Done a => f a
  | InvalidPointer => InvalidPointer
  | CheckFailed => CheckFailed
  | OutOfFuel => OutOfFuel
  end.

#[global] Instance outcome_ret : MRet outcome := λ A a, Done a.

Definition cost_of (e : Elem) : Q := cumulativeCost e.2.

(* ===================================================================== *)
(** ** The cutoff engine *)
(* ===================================================================== *)

(** The number of candidate costs a cutoff admits. *)
Definition admitted (cutoff : Q) (ws : list Q) : nat :=
  length (filter (λ w, (w <= cutoff)%Q) ws).

(** One scan for the best candidate and the candidate count. *)
Definition scan_step (acc : Elem * nat) (e : Elem) : Elem * nat :=
  (if decide (cost_of e < cost_of acc.1)%Q then e else acc.1, S acc.2).

Definition scan (first : Elem) (rest : list Elem) : Elem * nat :=
  fold_left scan_step rest (first, 1%nat).

(** The beam admits fewer than [min_active] candidates although more exist. *)
Definition starved (cfg : FasterDecoderOptions) (ws : list Q) (cutoff : Q) : bool :=
  bool_decide (Z.of_nat (admitted cutoff ws) < min_active cfg)%Z
  && bool_decide (admitted cutoff ws < length ws)%nat.

(** Relaxation by [beam_delta] increments; one unit of fuel per increment. *)
Fixpoint relax (fuel : nat) (cfg : FasterDecoderOptions) (ws : list Q)
    (cutoff : Q) : outcome Q :=
  if starved cfg ws cutoff then
    match fuel with
    | O => OutOfFuel
    | S fuel' => relax fuel' cfg ws (cutoff + beam_delta cfg)%Q
    end
  else Done cutoff.

Record CutoffResult := mkCutoff {
  cutoffCost : Q;
  bestHypothesis : Elem;
  candidateCount : nat;
  effectiveBeam : Q
}.

(** Modelled from the spec: [GetCutoff] is only declared in the header.  The
    candidate list is [first :: rest] (the list head is not [NULL]).  Scan for
    the minimum and the count; start from minimum + beam; if that admits more
    than [max_active] candidates, tighten to the cost of the [max_active]-th
    smallest; otherwise, if it admits fewer than [min_active] and more
    candidates exist, relax by [beam_delta] increments. *)
Definition GetCutoff (fuel : nat) (cfg : FasterDecoderOptions)
    (first : Elem) (rest : list Elem) : outcome CutoffResult :=
  let '(best, count) := scan first rest in
  let ws := cost_of <$> (first :: rest) in
  let best_cost := cost_of best in
  let beam_cutoff := (best_cost + beam cfg)%Q in
  if decide (max_active cfg < Z.of_nat (admitted beam_cutoff ws))%Z then
    let c := default best_cost
               (merge_sort Qle ws !! Z.to_nat (max_active cfg - 1)) in
    Done (mkCutoff c best count (c - best_cost)%Q)
  else
    c ← relax fuel cfg ws beam_cutoff;
    Done (mkCutoff c best count (c - best_cost)%Q).

(* ===================================================================== *)
(** ** The frame expander *)
(* ===================================================================== *)

Definition emit_arc (d : Decodable) (frame : Z) (src : Hyp)
    (next : list Elem) (a : Arc) : list Elem :=
  if emitting a
  then upsert (nextstate a)
         (create a (Some src) (Some (AcousticCost d frame a))) next
  else next.

Definition emit_from (g : Fst) (d : Decodable) (frame : Z) (cutoff : Q)
    (next : list Elem) (e : Elem) : list Elem :=
  if decide (cost_of e <= cutoff)%Q
  then fold_left (emit_arc d frame e.2) (arcs_of g e.1) next
  else next.

(** Modelled from the spec: [ProcessEmitting] is only declared in the header.
    It drains the current generation, computes the cutoff over it, expands
    every admitted hypothesis along the frame-consuming transitions into the
    next generation, advances the frame counter and returns the cutoff used
    (none when the generation was empty). *)
Definition ProcessEmitting (fuel : nat) (d : Decodable) (dec : FasterDecoder)
  : outcome (option Q * FasterDecoder) :=
  let '(cur, emptied) := drain (toks_ dec) in
  let frame := num_frames_decoded_ dec in
  match cur with
  | [] =>
      Done (None, mkDecoder (fst_ dec) (config_ dec) emptied (frame + 1))
  | first :: rest =>
      r ← GetCutoff fuel (config_ dec) first rest;
      let next :=
        fold_left (emit_from (fst_ dec) d frame (cutoffCost r)) cur emptied in
      Done (Some (cutoffCost r),
            mkDecoder (fst_ dec) (config_ dec) next (frame + 1))
  end.

(** A destination is improved when it has no entry yet or a costlier one. *)
Definition improves (s : Z) (h : Hyp) (toks : list Elem) : bool :=
  match lookup_state s toks with
  | None => true
  | Some old => bool_decide (cumulativeCost h < cumulativeCost old)%Q
  end.

(** [queue_]: enqueue unless already pending. *)
Definition enqueue (s : Z) (queue : list Z) : list Z :=
  if decide (s ∈ queue) then queue else queue ++ [s].

Definition relax_arc (cutoff : Q) (src : Hyp)
    (st : list Elem * list Z) (a : Arc) : list Elem * list Z :=
  if emitting a then st
  else
    let cand := create a (Some src) None in
    if bool_decide (cumulativeCost cand <= cutoff)%Q
       && improves (nextstate a) cand st.1
    then (upsert (nextstate a) cand st.1, enqueue (nextstate a) st.2)
    else st.

(** The work-queue loop; one unit of fuel per dequeued state. *)
Fixpoint nonemitting_loop (fuel : nat) (g : Fst) (cutoff : Q)
    (toks : list Elem) (queue : list Z) : outcome (list Elem) :=
  match queue with
  | [] => Done toks
  | s :: pending =>
      match fuel with
      | O => OutOfFuel
      | S fuel' =>
          match lookup_state s toks with
          | None => nonemitting_loop fuel' g cutoff toks pending
          | Some src =>
              let st := fold_left (relax_arc cutoff src) (arcs_of g s)
                          (toks, pending) in
              nonemitting_loop fuel' g cutoff st.1 st.2
          end
      end
  end.

(** Modelled from the spec: [ProcessNonemitting] is only declared in the
    header.  The queue is seeded with every state of the generation; a
    dequeued state is expanded along its frame-free transitions; the pass
    ends when the queue is empty. *)
Definition ProcessNonemitting (fuel : nat) (cutoff : Q) (dec : FasterDecoder)
  : outcome FasterDecoder :=
  toks ← nonemitting_loop fuel (fst_ dec) cutoff (toks_ dec) (toks_ dec).*1;
  Done (mkDecoder (fst_ dec) (config_ dec) toks (num_frames_decoded_ dec)).

(** One frame: the emitting pass, then the non-emitting pass with the cutoff
    the emitting pass returned. *)
Definition decode_frame (fuel : nat) (d : Decodable) (dec : FasterDecoder)
  : outcome FasterDecoder :=
  r ← ProcessEmitting fuel d dec;
  match r.1 with
  | Some cutoff => ProcessNonemitting fuel cutoff r.2
  | None => Done r.2
  end.

(** [while (num_frames_decoded_ < target) { ... }]; [n] bounds the number of
    passes through the body. *)
Fixpoint advance_loop (fuel : nat) (d : Decodable) (target : Z) (n : nat)
    (dec : FasterDecoder) : outcome FasterDecoder :=
  if decide (num_frames_decoded_ dec < target)%Z then
    match n with
    | O => OutOfFuel
    | S n' =>
        dec' ← decode_frame fuel d dec;
        advance_loop fuel d target n' dec'
    end
  else Done dec.

(** Modelled from the spec: [InitDecoding] is only declared in the header.
    The active generation becomes the path root at the start state and the
    frame counter is reset. *)
Definition InitDecoding (dec : FasterDecoder) : FasterDecoder :=
  let start := Start (fst_ dec) in
  mkDecoder (fst_ dec) (config_ dec)
    [(start, create (mkArc start 0 0 false) None None)] 0.

(** Modelled from the spec: [AdvanceDecoding] is only declared in the header.
    It decodes until no more frames are ready, but no more than
    [max_num_frames] frames when that is [>= 0]. *)
Definition AdvanceDecoding (fuel : nat) (d : Decodable) (max_num_frames : Z)
    (dec : FasterDecoder) : outcome FasterDecoder :=
  let decoded := num_frames_decoded_ dec in
  let target :=
    if (0 <=? max_num_frames)%Z
    then Z.min (NumFramesReady d) (decoded + max_num_frames)
    else NumFramesReady d in
  advance_loop fuel d target (Z.to_nat (target - decoded)) dec.

(** Modelled from the spec: [Decode] is only declared in the header.  It
    initialises and runs frame by frame until the frames are exhausted. *)
Definition Decode (fuel : nat) (d : Decodable) (dec : FasterDecoder)
  : outcome FasterDecoder :=
  let dec0 := InitDecoding dec in
  advance_loop fuel d (NumFramesReady d) (Z.to_nat (NumFramesReady d)) dec0.

(* ===================================================================== *)
(** ** Traceback *)
(* ===================================================================== *)

Definition is_final (g : Fst) (e : Elem) : bool :=
  match Final g e.1 with Some _ => true | None => false end.

(** Modelled from the spec: [ReachedFinal] is only declared in the header. *)
Definition ReachedFinal (dec : FasterDecoder) : bool :=
  existsb (is_final (fst_ dec)) (toks_ dec).

(** The first entry of least key. *)
Definition argmin (key : Elem → Q) (l : list Elem) : option Elem :=
  match l with
  | [] => None
  | e :: rest =>
      Some (fold_left (λ b e', if decide (key e' < key b)%Q then e' else b)
              rest e)
  end.

Definition final_cost_of (g : Fst) (e : Elem) : Q :=
  (cost_of e + default 0 (Final g e.1))%Q.

(** The output labels met walking from a hypothesis back to the root.  The
    root stands for the start state: no transition of the graph led to it. *)
Fixpoint walk_back (h : Hyp) : list Z :=
  match h with
  | mkHyp tr (Some p) _ => olabel tr :: walk_back p
  | mkHyp _ None _ => []
  end.

(** Modelled from the spec: [GetBestPath] is only declared in the header.
    [None] is the [false] return.  The header documents the return value:
    [true] when the output best path is not empty.  So the call fails when
    no hypothesis is active (section 4.6) and also when the selected
    hypothesis carries no label, as in Scenario D of section 8, where no
    frame was decoded and the start hypothesis is selected. *)
Definition GetBestPath (dec : FasterDecoder) (use_final_probs : bool)
  : option (list Z) :=
  let g := fst_ dec in
  best ← (if use_final_probs && ReachedFinal dec
          then argmin (final_cost_of g) (List.filter (is_final g) (toks_ dec))
          else argmin cost_of (toks_ dec));
  match rev (walk_back best.2) with
  | [] => None
  | label :: labels => Some (label :: labels)
  end.

(* ===================================================================== *)
(** ** Specification vocabulary *)
(* ===================================================================== *)

(** Heaps built from the empty heap by the two token constructors, from
    transitions of non-negative graph weight whose acoustic costs satisfy
    [ac_ok]. *)
Inductive built (ac_ok : Q → Prop) : gmap addr Token → Prop :=
  | built_empty : built ac_ok ∅
  | built_new raw this arc ac prev h h' :
      built ac_ok h → (0 <= weight arc)%Q → ac_ok ac →
      Token_new raw this arc ac prev h = Some h' → built ac_ok h'
  | built_new_noac raw this arc prev h h' :
      built ac_ok h → (0 <= weight arc)%Q →
      Token_new_noac raw this arc prev h = Some h' → built ac_ok h'.

(** [p] is the predecessor of the token at [a]. *)
Definition prev_of (h : gmap addr Token) (a p : addr) : Prop :=
  ∃ t, h !! a = Some t ∧ prev_ t = Some p.

(** Every predecessor pointer leads to a live token of no greater cost. *)
Definition cost_monotone (h : gmap addr Token) : Prop :=
  ∀ a t p, h !! a = Some t → prev_ t = Some p →
    ∃ tp, h !! p = Some tp ∧ (cost_ tp <= cost_ t)%Q.

(** An invalid configuration and a decoder to install it in. *)
Definition invalid_options : FasterDecoderOptions :=
  mkOptions 0 10 20 (1#2) 0.

Definition empty_decoder : FasterDecoder :=
  mkDecoder (mkFst 0 []) default_options [] 0.

(** The generation obtained by upserting the candidates in order into the
    drained index. *)
Definition generation (cands : list Elem) : list Elem :=
  fold_left (λ toks e, upsert e.1 e.2 toks) cands [].


(** [n] calls of [AdvanceDecoding] with [max_num_frames = 1]. *)
Fixpoint advance_each (fuel : nat) (d : Decodable) (n : nat)
    (dec : FasterDecoder) : outcome FasterDecoder :=
  match n with
  | O => Done dec
  | S n' =>
      dec' ← AdvanceDecoding fuel d 1 dec;
      advance_each fuel d n' dec'
  end.

(** No two candidates have the same cost. *)
Fixpoint distinct_costs (ws : list Q) : Prop :=
  match ws with
  | [] => True
  | w :: rest => Forall (λ w', ¬ (w' == w)%Q) rest ∧ distinct_costs rest
  end.

(** The hypothesis an upsert leaves for its state. *)
Definition kept (h : Hyp) (old : option Hyp) : Hyp :=
  match old with
  | Some o => if decide (cumulativeCost h < cumulativeCost o)%Q then h else o
  | None => h
  end.

(** What the index holds for each state, given the candidates seen so far:
    a least-cost candidate of that state, or nothing if there was none. *)
Definition best_of (seen toks : list Elem) : Prop :=
  ∀ s, match lookup_state s toks with
       | Some h =>
           (s, h) ∈ seen ∧
           ∀ h', (s, h') ∈ seen → (cumulativeCost h <= cumulativeCost h')%Q
       | None => ∀ h', (s, h') ∉ seen
       end.

(** The hypothesis a heap token denotes: its transition, the hypothesis of
    its predecessor and its cost; the reference counts play no part. *)
Fixpoint hyp_of (fuel : nat) (h : gmap addr Token) (a : addr) : option Hyp :=
  match fuel with
  | O => None
  | S fuel' =>
      t ← h !! a;
      match prev_ t with
      | None => Some (mkHyp (arc_ t) None (cost_ t))
      | Some p =>
          hp ← hyp_of fuel' h p;
          Some (mkHyp (arc_ t) (Some hp) (cost_ t))
      end
  end.

(** Every transition of the graph, and the graphs whose weights are all
    non-negative. *)
Definition all_arcs (g : Fst) : list Arc := states g ≫= fst.

Definition nonneg_weights (g : Fst) : Prop :=
  ∀ a, a ∈ all_arcs g → (0 <= weight a)%Q.

(** Costs that are whole multiples of [1 / D], and the multiple below a
    cost. *)
Definition on_grid (D : positive) (q : Q) : Prop := ∃ z : Z, (q == z # D)%Q.

Definition level (D : positive) (q : Q) : Z := Qfloor (q * inject_Z (Zpos D)).

(** A common denominator of finitely many costs. *)
Definition common_denominator (qs : list Q) : positive :=
  foldr (λ q acc, Qden q * acc)%positive 1%positive qs.

(** The termination measure of the non-emitting pass.  A state with an entry
    ranks by the level of its cost above the floor [lo]; a state without
    entry ranks above every cost the cutoff admits.  The potential adds the
    ranks of the destinations of all transitions. *)
Definition vacant_rank (D : positive) (lo cutoff : Q) : nat :=
  S (Z.to_nat (level D cutoff - level D lo)).

Definition rank (D : positive) (lo cutoff : Q) (toks : list Elem) (s : Z) : nat :=
  match lookup_state s toks with
  | Some h => Z.to_nat (level D (cumulativeCost h) - level D lo)
  | None => vacant_rank D lo cutoff
  end.

Definition potential (g : Fst) (D : positive) (lo cutoff : Q)
    (toks : list Elem) : nat :=
  sum_list_with (rank D lo cutoff toks) (nextstate <$> all_arcs g).

Definition work (g : Fst) (D : positive) (lo cutoff : Q)
    (st : list Elem * list Z) : nat :=
  2 * potential g D lo cutoff st.1 + length st.2.

(** Every entry of the index has a cost on the grid and above the floor. *)
Definition grounded (D : positive) (lo : Q) (toks : list Elem) : Prop :=
  ∀ s h, lookup_state s toks = Some h →
    on_grid D (cumulativeCost h) ∧ (lo <= cumulativeCost h)%Q.

(** The number of live tokens whose predecessor is [a]. *)
Definition referrers (h : gmap addr Token) (a : addr) : nat :=
  size (filter (λ kt : addr * Token, prev_ kt.2 = Some a) h).

(** The reference-count discipline of the token heap.  [owners a] is the
    number of references to the token at [a] held outside the heap (by the
    active-state index or by a caller); a live token's [ref_count_] is that
    number plus the number of live tokens whose [prev_] is [a], and is at
    least 1.  Every [prev_] points to a live token, created earlier
    ([depth] decreases along [prev_]). *)
Record counted (owners depth : addr → nat) (h : gmap addr Token) : Prop :=
  mkCounted {
    counted_refs : ∀ a t, h !! a = Some t →
      ref_count_ t = Z.of_nat (owners a + referrers h a);
    counted_held : ∀ a t, h !! a = Some t → 1 ≤ owners a + referrers h a;
    counted_prev : ∀ a t p, h !! a = Some t → prev_ t = Some p →
      is_Some (h !! p) ∧ depth p < depth a
  }.

(** Giving up, taking and being the first to hold a reference. *)
Definition release_owner (tok : addr) (owners : addr → nat) : addr → nat :=
  λ a, if decide (a = tok) then pred (owners a) else owners a.

Definition acquire_owner (tok : addr) (owners : addr → nat) : addr → nat :=
  λ a, if decide (a = tok) then S (owners a) else owners a.

Definition first_owner (tok : addr) (owners : addr → nat) : addr → nat :=
  λ a, if decide (a = tok) then 1 else owners a.
(* ===================================================================== *)
(** Modelled from the header's comment on [ClearToks] (the body is in the .cc
    file): it deletes the [Token] objects of the drained list, one
    [TokenDelete] per element; the [Elem] cells that carried them are not
    modelled.  The destructor runs it on [toks_.Clear()]. *)
Fixpoint ClearToks (list : list addr) (st : Store) : outcome Store :=
  match list with
  | [] => Done st
  | tok :: rest => st' ← TokenDelete tok st; ClearToks rest st'
  end.

(** * Properties *)
(* ===================================================================== *)

(** ** Token::Init *)

Lemma update_Some a f (h : gmap addr Token) t :
  h !! a = Some t → update a f h = Some (<[a := f t]> h).
Proof. intros H. unfold update. rewrite H. reflexivity. Qed.

Lemma update_None a f (h : gmap addr Token) :
  h !! a = None → update a f h = None.
Proof. intros H. unfold update. rewrite H. reflexivity. Qed.

(** Runs the three leading field writes of [Init] on a live [this]. *)
Ltac init_writes H :=
  rewrite (update_Some _ _ _ _ H); cbn [mbind option_bind];
  erewrite (update_Some _ (set_prev _)) by apply lookup_insert_eq;
  cbn [mbind option_bind];
  erewrite (update_Some _ (set_ref_count _)) by apply lookup_insert_eq;
  cbn [mbind option_bind];
  rewrite !insert_insert_eq.

Ltac same_heap :=
  f_equal; apply map_eq; intros i;
  repeat match goal with
  | |- context [<[?a := _]> _ !! i] =>
      destruct (decide (i = a)) as [->|];
      [ by rewrite ?lookup_insert_eq, ?lookup_insert_ne by done
      | rewrite !(lookup_insert_ne _ a) by done ]
  end; try done.

Lemma Token_Init_root this arc ac (h : gmap addr Token) t0 :
  h !! this = Some t0 →
  Token_Init this arc ac None h
  = Some (<[this := mkToken arc None 1 (weight arc + ac)%Q]> h).
Proof.
  intros H. unfold Token_Init. init_writes H.
  erewrite update_Some by apply lookup_insert_eq.
  by rewrite insert_insert_eq.
Qed.

Lemma Token_Init_noac_root this arc (h : gmap addr Token) t0 :
  h !! this = Some t0 →
  Token_Init_noac this arc None h
  = Some (<[this := mkToken arc None 1 (weight arc)]> h).
Proof.
  intros H. unfold Token_Init_noac. init_writes H.
  erewrite update_Some by apply lookup_insert_eq.
  by rewrite insert_insert_eq.
Qed.

Lemma Token_Init_chained this arc ac p (h : gmap addr Token) t0 tp :
  this ≠ p → h !! this = Some t0 → h !! p = Some tp →
  Token_Init this arc ac (Some p) h
  = Some (<[this := mkToken arc (Some p) 1 (cost_ tp + weight arc + ac)%Q]>
            (<[p := incr_ref_count tp]> h)).
Proof.
  intros Hne H Hp. unfold Token_Init. init_writes H.
  rewrite (update_Some p _ _ tp) by (by rewrite lookup_insert_ne).
  cbn [mbind option_bind]. rewrite lookup_insert_eq. cbn [mbind option_bind].
  erewrite (update_Some this)
    by (rewrite lookup_insert_ne by done; apply lookup_insert_eq).
  same_heap.
Qed.

Lemma Token_Init_noac_chained this arc p (h : gmap addr Token) t0 tp :
  this ≠ p → h !! this = Some t0 → h !! p = Some tp →
  Token_Init_noac this arc (Some p) h
  = Some (<[this := mkToken arc (Some p) 1 (cost_ tp + weight arc)%Q]>
            (<[p := incr_ref_count tp]> h)).
Proof.
  intros Hne H Hp. unfold Token_Init_noac. init_writes H.
  rewrite (update_Some p _ _ tp) by (by rewrite lookup_insert_ne).
  cbn [mbind option_bind]. rewrite lookup_insert_eq. cbn [mbind option_bind].
  erewrite (update_Some this)
    by (rewrite lookup_insert_ne by done; apply lookup_insert_eq).
  same_heap.
Qed.

Lemma Token_Init_self this arc ac (h : gmap addr Token) t0 :
  h !! this = Some t0 →
  Token_Init this arc ac (Some this) h
  = Some (<[this := mkToken arc (Some this) 2
                      (cost_ t0 + weight arc + ac)%Q]> h).
Proof.
  intros H. unfold Token_Init. init_writes H.
  erewrite (update_Some this incr_ref_count) by apply lookup_insert_eq.
  cbn [mbind option_bind]. rewrite lookup_insert_eq. cbn [mbind option_bind].
  erewrite (update_Some this) by apply lookup_insert_eq.
  by rewrite !insert_insert_eq.
Qed.

Lemma Token_Init_noac_self this arc (h : gmap addr Token) t0 :
  h !! this = Some t0 →
  Token_Init_noac this arc (Some this) h
  = Some (<[this := mkToken arc (Some this) 2 (cost_ t0 + weight arc)%Q]> h).
Proof.
  intros H. unfold Token_Init_noac. init_writes H.
  erewrite (update_Some this incr_ref_count) by apply lookup_insert_eq.
  cbn [mbind option_bind]. rewrite lookup_insert_eq. cbn [mbind option_bind].
  erewrite (update_Some this) by apply lookup_insert_eq.
  by rewrite !insert_insert_eq.
Qed.

Lemma Token_Init_dangling this arc ac p (h : gmap addr Token) :
  h !! this = None ∨ h !! p = None → Token_Init this arc ac (Some p) h = None.
Proof.
  intros H. unfold Token_Init.
  destruct (h !! this) as [t0|] eqn:Ht; [|by rewrite (update_None _ _ _ Ht)].
  destruct H as [H|H]; [done|].
  assert (this ≠ p) by congruence.
  init_writes Ht. rewrite update_None; [done|]. by rewrite lookup_insert_ne.
Qed.

Lemma Token_Init_noac_dangling this arc p (h : gmap addr Token) :
  h !! this = None ∨ h !! p = None → Token_Init_noac this arc (Some p) h = None.
Proof.
  intros H. unfold Token_Init_noac.
  destruct (h !! this) as [t0|] eqn:Ht; [|by rewrite (update_None _ _ _ Ht)].
  destruct H as [H|H]; [done|].
  assert (this ≠ p) by congruence.
  init_writes Ht. rewrite update_None; [done|]. by rewrite lookup_insert_ne.
Qed.

(** C3.  A token initialised with a predecessor has as cumulative cost the
    predecessor's cumulative cost plus the transition's graph weight plus,
    when the step consumes a frame, the acoustic cost of that frame; a token
    initialised without predecessor (a path root) has its own transition
    cost, the graph weight plus any acoustic cost. *)
Theorem Token_Init_cumulative_cost this arc ac prev (h : gmap addr Token) :
  is_Some (h !! this) →
  (∀ p, prev = Some p → is_Some (h !! p)) →
  (∃ h' t, Token_Init this arc ac prev h = Some h' ∧ h' !! this = Some t ∧
     match prev with
     | Some p =>
         ∃ tp, h !! p = Some tp ∧ cost_ t = (cost_ tp + weight arc + ac)%Q
     | None => cost_ t = (weight arc + ac)%Q
     end) ∧
  (∃ h' t, Token_Init_noac this arc prev h = Some h' ∧ h' !! this = Some t ∧
     match prev with
     | Some p => ∃ tp, h !! p = Some tp ∧ cost_ t = (cost_ tp + weight arc)%Q
     | None => cost_ t = weight arc
     end).
Proof.
  intros [t0 Ht0] Hprev. destruct prev as [p|].
  - destruct (Hprev p eq_refl) as [tp Htp].
    destruct (decide (this = p)) as [<-|Hne].
    + assert (tp = t0) as -> by congruence. split.
      * eexists _, _. split; [by apply Token_Init_self|].
        split; [apply lookup_insert_eq|]. by exists t0.
      * eexists _, _. split; [by apply Token_Init_noac_self|].
        split; [apply lookup_insert_eq|]. by exists t0.
    + split.
      * eexists _, _. split; [by eapply Token_Init_chained|].
        split; [apply lookup_insert_eq|]. by exists tp.
      * eexists _, _. split; [by eapply Token_Init_noac_chained|].
        split; [apply lookup_insert_eq|]. by exists tp.
  - split.
    + eexists _, _. split; [by eapply Token_Init_root|].
      split; [apply lookup_insert_eq|]. done.
    + eexists _, _. split; [by eapply Token_Init_noac_root|].
      split; [apply lookup_insert_eq|]. done.
Qed.

Lemma Token_Init_cumulative_cost_witness :
  let arc := mkArc 1 7 1 true in
  let h : gmap addr Token :=
    {[ 0%nat := mkToken (mkArc 0 0 0 false) None 1 (5#2);
       1%nat := mkToken (mkArc 0 0 0 false) None 1 0 ]} in
  ∃ h' t, Token_Init 1 arc 2 (Some 0%nat) h = Some h' ∧ h' !! 1%nat = Some t ∧
    ∃ tp, h !! 0%nat = Some tp ∧ cost_ t = (cost_ tp + weight arc + 2)%Q.
Proof.
  intros arc h.
  refine (proj1 (Token_Init_cumulative_cost 1 arc 2 (Some 0%nat) h _ _)).
  - by eexists.
  - intros p [= <-]. by eexists.
Defined.

(** C10.  The comparison operator of tokens is inverted with respect to
    cost: [t1 < t2] holds exactly when the cumulative cost of [t1] is
    strictly greater than that of [t2]. *)
Theorem Token_lt_inverted (t1 t2 : Token) :
  Token_lt t1 t2 = true ↔ (cost_ t2 < cost_ t1)%Q.
Proof.
  unfold Token_lt, Qgt_bool. rewrite (Qgt_alt (cost_ t1) (cost_ t2)).
  destruct (cost_ t1 ?= cost_ t2)%Q; split; congruence.
Qed.

(** ** Configuration *)

(** C9 fails on [SetOptions]: a configuration with [min_active > max_active],
    a zero beam and a zero hash ratio is installed as given. *)
Lemma SetOptions_accepts_invalid :
  ¬ (ConfigurationInvalid invalid_options →
     config_ (SetOptions invalid_options empty_decoder) ≠ invalid_options).
Proof.
  intros H. apply H; [|reflexivity].
  left. reflexivity.
Qed.

(** C9, amended.  [SetOptions] performs no validation: whatever the
    configuration, it becomes the decoder's configuration, and the graph, the
    active generation and the frame counter are left as they were. *)
Theorem SetOptions_installs (config : FasterDecoderOptions) (d : FasterDecoder) :
  config_ (SetOptions config d) = config ∧
  fst_ (SetOptions config d) = fst_ d ∧
  toks_ (SetOptions config d) = toks_ d ∧
  NumFramesDecoded (SetOptions config d) = NumFramesDecoded d.
Proof. done. Qed.

(** ** Token::TokenDelete *)

Lemma pool_Delete_written tok t n (st : Store) :
  pool_Delete tok (mkStore (<[tok := set_ref_count n t]> (heap st)) (pool st))
  = pool_Delete tok st.
Proof. unfold pool_Delete. cbn. by rewrite delete_insert_eq. Qed.

Lemma size_recycled tok t (st : Store) :
  heap st !! tok = Some t → S (size (heap (pool_Delete tok st))) = size (heap st).
Proof.
  intros H. cbn. rewrite map_size_delete, H.
  assert (size (heap st) ≠ 0%nat); [|lia].
  intros Hz. apply map_size_empty_iff in Hz. rewrite Hz in H.
  by rewrite lookup_empty in H.
Qed.

Lemma TokenDelete_loop_S fuel tok st t :
  heap st !! tok = Some t →
  TokenDelete_loop (S fuel) tok st =
    if (ref_count_ t =? 1)%Z then
      match prev_ t with
      | None => Done (pool_Delete tok st)
      | Some p => TokenDelete_loop fuel p (pool_Delete tok st)
      end
    else if (1 <? ref_count_ t)%Z
    then Done (mkStore (<[tok := set_ref_count (ref_count_ t - 1) t]> (heap st))
                 (pool st))
    else CheckFailed.
Proof.
  intros Ht. cbn [TokenDelete_loop]. rewrite Ht. cbv zeta.
  rewrite pool_Delete_written.
  replace (ref_count_ t - 1 =? 0)%Z with (ref_count_ t =? 1)%Z by lia.
  replace (0 <? ref_count_ t - 1)%Z with (1 <? ref_count_ t)%Z by lia.
  reflexivity.
Qed.

Lemma TokenDelete_loop_enough fuel : ∀ tok st,
  size (heap st) < fuel → TokenDelete_loop fuel tok st ≠ OutOfFuel.
Proof.
  induction fuel as [|fuel IH]; intros tok st Hsz; [lia|].
  destruct (heap st !! tok) as [t|] eqn:Ht; [|by cbn; rewrite Ht].
  rewrite (TokenDelete_loop_S _ _ _ _ Ht).
  destruct (ref_count_ t =? 1)%Z.
  - destruct (prev_ t); [|done].
    apply IH. pose proof (size_recycled _ _ _ Ht). lia.
  - by destruct (1 <? ref_count_ t)%Z.
Qed.

Lemma TokenDelete_unfold tok st t :
  heap st !! tok = Some t →
  TokenDelete tok st =
    if (ref_count_ t =? 1)%Z then
      match prev_ t with
      | None => Done (pool_Delete tok st)
      | Some p => TokenDelete p (pool_Delete tok st)
      end
    else if (1 <? ref_count_ t)%Z
    then Done (mkStore (<[tok := set_ref_count (ref_count_ t - 1) t]> (heap st))
                 (pool st))
    else CheckFailed.
Proof.
  intros Ht. unfold TokenDelete.
  rewrite (TokenDelete_loop_S _ _ _ _ Ht).
  by rewrite (size_recycled _ _ _ Ht).
Qed.

Lemma TokenDelete_loop_pool_grows fuel : ∀ tok st st' a,
  TokenDelete_loop fuel tok st = Done st' → a ∈ pool st → a ∈ pool st'.
Proof.
  induction fuel as [|fuel IH]; intros tok st st' a; [done|].
  destruct (heap st !! tok) as [t|] eqn:Ht; [|by cbn; rewrite Ht].
  rewrite (TokenDelete_loop_S _ _ _ _ Ht).
  destruct (ref_count_ t =? 1)%Z.
  - destruct (prev_ t).
    + intros H Ha. eapply IH; [done|]. cbn. by apply list_elem_of_further.
    + intros [= <-] Ha. cbn. by apply list_elem_of_further.
  - destruct (1 <? ref_count_ t)%Z; [|done]. by intros [= <-].
Qed.

Lemma TokenDelete_loop_destroyed fuel : ∀ tok st st' a t,
  TokenDelete_loop fuel tok st = Done st' →
  heap st !! a = Some t → heap st' !! a = None →
  ref_count_ t = 1%Z ∧ a ∈ pool st'.
Proof.
  induction fuel as [|fuel IH]; intros tok st st' a t; [done|].
  destruct (heap st !! tok) as [t0|] eqn:Ht0; [|by cbn; rewrite Ht0].
  rewrite (TokenDelete_loop_S _ _ _ _ Ht0).
  destruct (ref_count_ t0 =? 1)%Z eqn:Hz.
  - destruct (decide (a = tok)) as [->|Hne].
    + intros H Ha _. assert (t = t0) as -> by congruence. split; [lia|].
      assert (tok ∈ pool (pool_Delete tok st)) by (cbn; apply list_elem_of_here).
      destruct (prev_ t0).
      * by eapply TokenDelete_loop_pool_grows.
      * by injection H as <-.
    + destruct (prev_ t0).
      * intros H Ha Hgone. eapply IH; [done| |done].
        cbn. by rewrite lookup_delete_ne.
      * intros [= <-] Ha. cbn. rewrite lookup_delete_ne by done. congruence.
  - destruct (1 <? ref_count_ t0)%Z; [|done]. intros [= <-] Ha. cbn.
    destruct (decide (a = tok)) as [->|Hne].
    + by rewrite lookup_insert_eq.
    + rewrite lookup_insert_ne by done. congruence.
Qed.

Lemma Token_Init_effect this arc ac prev (h h' : gmap addr Token) :
  prev ≠ Some this →
  Token_Init this arc ac prev h = Some h' ∨
  Token_Init_noac this arc prev h = Some h' →
  (∃ t, h' !! this = Some t ∧ ref_count_ t = 1%Z ∧ prev_ t = prev) ∧
  (∀ p, prev = Some p →
     ∃ tp, h !! p = Some tp ∧ h' !! p = Some (incr_ref_count tp)) ∧
  (∀ a, a ≠ this → prev ≠ Some a → h' !! a = h !! a).
Proof.
  intros Hself Hinit.
  destruct (h !! this) as [t0|] eqn:Ht0; cycle 1.
  { unfold Token_Init, Token_Init_noac in Hinit.
    rewrite (update_None _ _ _ Ht0) in Hinit. by destruct Hinit. }
  destruct prev as [p|].
  - assert (this ≠ p) as Hne by congruence.
    destruct (h !! p) as [tp|] eqn:Htp; cycle 1.
    { rewrite Token_Init_dangling, Token_Init_noac_dangling in Hinit by auto.
      by destruct Hinit. }
    rewrite (Token_Init_chained _ _ _ _ _ _ _ Hne Ht0 Htp),
      (Token_Init_noac_chained _ _ _ _ _ _ Hne Ht0 Htp) in Hinit.
    destruct Hinit as [[= <-]|[= <-]].
    all: split; [eexists; split; [apply lookup_insert_eq|done]|].
    all: split; [intros ? [= <-]; exists tp; split; [done|];
                 rewrite lookup_insert_ne by done; apply lookup_insert_eq|].
    all: intros a Ha Hp; rewrite !lookup_insert_ne by congruence; done.
  - rewrite (Token_Init_root _ _ _ _ _ Ht0),
      (Token_Init_noac_root _ _ _ _ Ht0) in Hinit.
    destruct Hinit as [[= <-]|[= <-]].
    all: split; [eexists; split; [apply lookup_insert_eq|done]|].
    all: split; [done|].
    all: intros a Ha _; by rewrite lookup_insert_ne.
Qed.

Lemma Token_Init_succeeds this arc ac prev (h : gmap addr Token) :
  prev ≠ Some this →
  is_Some (h !! this) → (∀ p, prev = Some p → is_Some (h !! p)) →
  is_Some (Token_Init this arc ac prev h) ∧
  is_Some (Token_Init_noac this arc prev h).
Proof.
  intros Hself [t0 Ht0] Hprev. destruct prev as [p|].
  - assert (this ≠ p) as Hne by congruence.
    destruct (Hprev p eq_refl) as [tp Htp].
    rewrite (Token_Init_chained _ _ _ _ _ _ _ Hne Ht0 Htp),
      (Token_Init_noac_chained _ _ _ _ _ _ Hne Ht0 Htp).
    by split; eexists.
  - rewrite (Token_Init_root _ _ _ _ _ Ht0), (Token_Init_noac_root _ _ _ _ Ht0).
    by split; eexists.
Qed.

Lemma TokenDelete_decrements tok st t :
  heap st !! tok = Some t → (1 < ref_count_ t)%Z →
  ∃ st' t', TokenDelete tok st = Done st' ∧ heap st' !! tok = Some t' ∧
    ref_count_ t' = (ref_count_ t - 1)%Z ∧
    arc_ t' = arc_ t ∧ prev_ t' = prev_ t ∧ cost_ t' = cost_ t ∧
    (∀ a, a ≠ tok → heap st' !! a = heap st !! a) ∧ pool st' = pool st.
Proof.
  intros Ht Hrc. rewrite (TokenDelete_unfold _ _ _ Ht).
  destruct (ref_count_ t =? 1)%Z eqn:Hone; [lia|].
  destruct (1 <? ref_count_ t)%Z eqn:Hlt; [|lia].
  eexists _, _. split; [done|]. cbn. split; [apply lookup_insert_eq|].
  do 4 (split; [done|]). split; [|done].
  intros a Ha. by rewrite lookup_insert_ne.
Qed.

(** C4.  Creation always succeeds on live storage with a live predecessor;
    it leaves the new record with reference count 1 and pointing to the
    predecessor, and the predecessor, when there is one, with its count
    increased by one and nothing else of it changed; no other record is
    touched, so creation removes none.  Release decrements the record's
    count: when the count stays positive it stores the decremented count and
    changes nothing else; exactly when it reaches zero it recycles the record
    (the record leaves the heap and its address joins the pool) and goes on
    with the predecessor.  The loop always ends, and a record that a release
    removes from the heap had count 1 and is in the pool. *)
Theorem Token_lifecycle :
  (∀ this arc ac prev (h : gmap addr Token),
     prev ≠ Some this →
     (is_Some (h !! this) → (∀ p, prev = Some p → is_Some (h !! p)) →
      is_Some (Token_Init this arc ac prev h) ∧
      is_Some (Token_Init_noac this arc prev h)) ∧
     ∀ h', Token_Init this arc ac prev h = Some h' ∨
           Token_Init_noac this arc prev h = Some h' →
       (∃ t, h' !! this = Some t ∧ ref_count_ t = 1%Z ∧ prev_ t = prev) ∧
       (∀ p, prev = Some p →
          ∃ tp tp', h !! p = Some tp ∧ h' !! p = Some tp' ∧
            ref_count_ tp' = (ref_count_ tp + 1)%Z ∧
            arc_ tp' = arc_ tp ∧ prev_ tp' = prev_ tp ∧ cost_ tp' = cost_ tp) ∧
       (∀ a, a ≠ this → prev ≠ Some a → h' !! a = h !! a)) ∧
  (∀ tok st t,
     heap st !! tok = Some t →
     TokenDelete tok st =
       if (ref_count_ t =? 1)%Z then
         match prev_ t with
         | None => Done (pool_Delete tok st)
         | Some p => TokenDelete p (pool_Delete tok st)
         end
       else if (1 <? ref_count_ t)%Z
       then Done (mkStore
                    (<[tok := set_ref_count (ref_count_ t - 1) t]> (heap st))
                    (pool st))
       else CheckFailed) ∧
  (∀ tok st t,
     heap st !! tok = Some t → (1 < ref_count_ t)%Z →
     ∃ st' t', TokenDelete tok st = Done st' ∧ heap st' !! tok = Some t' ∧
       ref_count_ t' = (ref_count_ t - 1)%Z ∧
       arc_ t' = arc_ t ∧ prev_ t' = prev_ t ∧ cost_ t' = cost_ t ∧
       (∀ a, a ≠ tok → heap st' !! a = heap st !! a) ∧ pool st' = pool st) ∧
  (∀ tok st,
     heap (pool_Delete tok st) !! tok = None ∧
     (∀ a, a ≠ tok → heap (pool_Delete tok st) !! a = heap st !! a) ∧
     pool (pool_Delete tok st) = tok :: pool st) ∧
  (∀ tok st, TokenDelete tok st ≠ OutOfFuel) ∧
  (∀ tok st st' a t,
     TokenDelete tok st = Done st' →
     heap st !! a = Some t → heap st' !! a = None →
     ref_count_ t = 1%Z ∧ a ∈ pool st').
Proof.
  split.
  { intros this arc ac prev h Hself. split.
    - by apply Token_Init_succeeds.
    - intros h' Hinit.
      destruct (Token_Init_effect _ _ _ _ _ _ Hself Hinit) as (Hnew & Hpred & Hrest).
      split; [done|]. split; [|done]. intros p Hp.
      destruct (Hpred p Hp) as (tp & Htp & Htp').
      by exists tp, (incr_ref_count tp). }
  split; [exact TokenDelete_unfold|].
  split; [exact TokenDelete_decrements|].
  split.
  { intros tok st. cbn. split; [apply lookup_delete_eq|]. split; [|done].
    intros a Ha. by rewrite lookup_delete_ne. }
  split.
  - intros tok st. apply TokenDelete_loop_enough. lia.
  - intros tok st st' a t. apply TokenDelete_loop_destroyed.
Qed.

Lemma Token_lifecycle_witness :
  let root := mkToken (mkArc 0 0 0 false) None 1 0 in
  let raw := mkToken (mkArc 0 0 0 false) None 0 0 in
  let h : gmap addr Token := <[1%nat := raw]> {[ 0%nat := root ]} in
  (∃ h' t tp',
     Token_Init 1 (mkArc 1 7 1 true) 2 (Some 0%nat) h = Some h' ∧
     h' !! 1%nat = Some t ∧ ref_count_ t = 1%Z ∧ prev_ t = Some 0%nat ∧
     h' !! 0%nat = Some tp' ∧ ref_count_ tp' = 2%Z) ∧
  (let tip := mkToken (mkArc 1 7 1 true) (Some 0%nat) 1 3 in
   let st := mkStore {[ 0%nat := root; 1%nat := tip ]} [] in
   heap st !! 1%nat = Some tip ∧
   TokenDelete 1 st = TokenDelete 0 (pool_Delete 1 st)).
Proof.
  intros root raw h. split.
  - assert (Some 0%nat ≠ Some 1%nat) as Hself by discriminate.
    destruct (proj1 Token_lifecycle 1%nat (mkArc 1 7 1 true) 2%Q (Some 0%nat)
                h Hself) as [Hlive Heffect].
    destruct Hlive as [[h' Hh'] _].
    { exists raw. reflexivity. }
    { intros p [= <-]. exists root. reflexivity. }
    destruct (Heffect h' (or_introl Hh')) as ((t & Ht & Hrc & Hprev) & Hpred & _).
    destruct (Hpred 0%nat eq_refl) as (tp & tp' & Htp & Htp' & Hinc & _).
    exists h', t, tp'. repeat split; try assumption.
    assert (tp = root) as -> by (injection Htp as <-; reflexivity).
    exact Hinc.
  - intros tip st. split; [reflexivity|].
    exact (proj1 (proj2 Token_lifecycle) 1%nat st tip eq_refl).
Defined.

(** ** Monotone costs along predecessor chains *)

Lemma cost_monotone_insert_root this T (h : gmap addr Token) :
  h !! this = None → cost_monotone h → prev_ T = None →
  cost_monotone (<[this := T]> h).
Proof.
  intros Hfresh Hmono HT a t p Ha Hp.
  destruct (decide (a = this)) as [->|Hne].
  - rewrite lookup_insert_eq in Ha. congruence.
  - rewrite lookup_insert_ne in Ha by done.
    destruct (Hmono a t p Ha Hp) as (tp & Htp & Hle).
    exists tp. split; [|done]. rewrite lookup_insert_ne; [done|congruence].
Qed.

Lemma cost_monotone_insert_self this T (h : gmap addr Token) :
  h !! this = None → cost_monotone h → prev_ T = Some this →
  cost_monotone (<[this := T]> h).
Proof.
  intros Hfresh Hmono HT a t p Ha Hp.
  destruct (decide (a = this)) as [->|Hne].
  - rewrite lookup_insert_eq in Ha. injection Ha as <-.
    assert (p = this) as -> by congruence.
    exists T. split; [apply lookup_insert_eq|apply Qle_refl].
  - rewrite lookup_insert_ne in Ha by done.
    destruct (Hmono a t p Ha Hp) as (tp & Htp & Hle).
    exists tp. split; [|done]. rewrite lookup_insert_ne; [done|congruence].
Qed.

Lemma cost_monotone_insert_chained this p tp T (h : gmap addr Token) :
  h !! this = None → h !! p = Some tp → cost_monotone h →
  prev_ T = Some p → (cost_ tp <= cost_ T)%Q →
  cost_monotone (<[this := T]> (<[p := incr_ref_count tp]> h)).
Proof.
  intros Hfresh Hp Hmono HT Hcost a t q Ha Hq.
  assert (this ≠ p) as Hne by congruence.
  assert (∀ b tb, h !! b = Some tb →
            ∃ tb', <[this := T]> (<[p := incr_ref_count tp]> h) !! b = Some tb'
                   ∧ cost_ tb' = cost_ tb) as Hkeep.
  { intros b tb Hb. assert (b ≠ this) by congruence.
    rewrite lookup_insert_ne by done.
    destruct (decide (b = p)) as [->|].
    - rewrite lookup_insert_eq. eexists. split; [done|]. cbn. congruence.
    - rewrite lookup_insert_ne by done. by exists tb. }
  destruct (decide (a = this)) as [->|Ha'].
  - rewrite lookup_insert_eq in Ha. injection Ha as <-.
    assert (q = p) as -> by congruence.
    destruct (Hkeep p tp Hp) as (tp' & Htp' & Hc).
    exists tp'. split; [done|]. by rewrite Hc.
  - rewrite lookup_insert_ne in Ha by done.
    assert (∃ t0, h !! a = Some t0 ∧ prev_ t0 = Some q ∧ cost_ t0 = cost_ t)
      as (t0 & Ht0 & Hq0 & Hc0).
    { destruct (decide (a = p)) as [->|].
      - rewrite lookup_insert_eq in Ha. injection Ha as <-. by exists tp.
      - rewrite lookup_insert_ne in Ha by done. by exists t. }
    destruct (Hmono a t0 q Ht0 Hq0) as (tq & Htq & Hle).
    destruct (Hkeep q tq Htq) as (tq' & Htq' & Hc).
    exists tq'. split; [done|]. by rewrite Hc, <- Hc0.
Qed.

Lemma insert_over_raw this p (T raw U : Token) (h : gmap addr Token) :
  this ≠ p →
  <[this := T]> (<[p := U]> (<[this := raw]> h)) = <[this := T]> (<[p := U]> h).
Proof.
  intros Hne. apply map_eq. intros i.
  destruct (decide (i = this)) as [->|]; [by rewrite !lookup_insert_eq|].
  rewrite !(lookup_insert_ne _ this) by done.
  destruct (decide (i = p)) as [->|]; [by rewrite !lookup_insert_eq|].
  rewrite !(lookup_insert_ne _ p) by done. by rewrite lookup_insert_ne.
Qed.

Lemma Token_new_monotone raw this arc ac prev (h h' : gmap addr Token) :
  cost_monotone h → (0 <= weight arc)%Q → (0 <= ac)%Q →
  Token_new raw this arc ac prev h = Some h' → cost_monotone h'.
Proof.
  intros Hmono Hw Hac. unfold Token_new.
  destruct (h !! this) eqn:Hfresh; [done|].
  assert (<[this := raw]> h !! this = Some raw) as Hraw by apply lookup_insert_eq.
  destruct prev as [p|].
  - destruct (decide (this = p)) as [<-|Hne].
    + rewrite (Token_Init_self _ _ _ _ _ Hraw), insert_insert_eq.
      intros [= <-]. by apply cost_monotone_insert_self.
    + destruct (h !! p) as [tp|] eqn:Hp.
      * rewrite (Token_Init_chained _ _ _ _ _ raw tp) by
          (try done; by rewrite lookup_insert_ne).
        rewrite insert_over_raw by done. intros [= <-].
        apply cost_monotone_insert_chained; try done. cbn. lra.
      * rewrite Token_Init_dangling; [done|]. right. by rewrite lookup_insert_ne.
  - rewrite (Token_Init_root _ _ _ _ _ Hraw), insert_insert_eq.
    intros [= <-]. by apply cost_monotone_insert_root.
Qed.

Lemma Token_new_noac_monotone raw this arc prev (h h' : gmap addr Token) :
  cost_monotone h → (0 <= weight arc)%Q →
  Token_new_noac raw this arc prev h = Some h' → cost_monotone h'.
Proof.
  intros Hmono Hw. unfold Token_new_noac.
  destruct (h !! this) eqn:Hfresh; [done|].
  assert (<[this := raw]> h !! this = Some raw) as Hraw by apply lookup_insert_eq.
  destruct prev as [p|].
  - destruct (decide (this = p)) as [<-|Hne].
    + rewrite (Token_Init_noac_self _ _ _ _ Hraw), insert_insert_eq.
      intros [= <-]. by apply cost_monotone_insert_self.
    + destruct (h !! p) as [tp|] eqn:Hp.
      * rewrite (Token_Init_noac_chained _ _ _ _ raw tp) by
          (try done; by rewrite lookup_insert_ne).
        rewrite insert_over_raw by done. intros [= <-].
        apply cost_monotone_insert_chained; try done. cbn. lra.
      * rewrite Token_Init_noac_dangling; [done|]. right.
        by rewrite lookup_insert_ne.
  - rewrite (Token_Init_noac_root _ _ _ _ Hraw), insert_insert_eq.
    intros [= <-]. by apply cost_monotone_insert_root.
Qed.

Lemma cost_monotone_chain (h : gmap addr Token) a b :
  cost_monotone h → rtc (prev_of h) a b →
  ∀ ta, h !! a = Some ta →
    ∃ tb, h !! b = Some tb ∧ (cost_ tb <= cost_ ta)%Q.
Proof.
  intros Hmono. induction 1 as [a|a p b (t & Ht & Hp) _ IH]; intros ta Ha.
  - exists ta. split; [done|apply Qle_refl].
  - assert (t = ta) as -> by congruence.
    destruct (Hmono a ta p Ha Hp) as (tp & Htp & Hle).
    destruct (IH tp Htp) as (tb & Htb & Hle').
    exists tb. split; [done|]. by apply Qle_trans with (cost_ tp).
Qed.

(** C5 fails as stated: with non-negative graph weights but a negative
    acoustic cost, a token is cheaper than its predecessor. *)
Lemma negative_acoustic_cost_breaks_monotonicity :
  ¬ (∀ h, built (λ _, True) h → cost_monotone h).
Proof.
  intros H.
  pose (root := mkToken (mkArc 0 0 0 false) None 1 0).
  pose (h1 := {[ 0%nat := root ]} : gmap addr Token).
  pose (tip := mkToken (mkArc 1 7 0 true) (Some 0%nat) 1 (0 + 0 + -1)).
  pose (h2 := <[1%nat := tip]> (<[0%nat := incr_ref_count root]> h1)).
  assert (built (λ _, True) h1) as B1.
  { apply (built_new_noac _ root 0%nat (mkArc 0 0 0 false) None ∅ h1);
      [constructor|done|reflexivity]. }
  assert (built (λ _, True) h2) as B2.
  { apply (built_new _ root 1%nat (mkArc 1 7 0 true) (-1) (Some 0%nat) h1 h2);
      [done|done|done|]. vm_compute. reflexivity. }
  destruct (H h2 B2 1%nat tip 0%nat) as (tp & Htp & Hle); [reflexivity..|].
  vm_compute in Htp. injection Htp as <-. vm_compute in Hle. by apply Hle.
Qed.

(** C5, amended.  In every heap built by the token constructors from
    transitions of non-negative graph weight and non-negative acoustic cost,
    each token's predecessor is live and costs no more than the token, so the
    cumulative cost does not increase along the predecessor chain from any
    token towards its root. *)
Theorem chain_cost_monotone (h : gmap addr Token) :
  built (λ ac, 0 <= ac)%Q h →
  cost_monotone h ∧
  ∀ a b ta, rtc (prev_of h) a b → h !! a = Some ta →
    ∃ tb, h !! b = Some tb ∧ (cost_ tb <= cost_ ta)%Q.
Proof.
  intros B. assert (cost_monotone h) as Hmono.
  { induction B as [|raw this arc ac prev h h' _ IH Hw Hac Hnew
                     |raw this arc prev h h' _ IH Hw Hnew].
    - intros a t p Ha. by rewrite lookup_empty in Ha.
    - by eapply Token_new_monotone.
    - by eapply Token_new_noac_monotone. }
  split; [done|]. intros a b ta Hab. by apply cost_monotone_chain.
Qed.

Lemma chain_cost_monotone_witness :
  let root := mkToken (mkArc 0 0 0 false) None 1 0 in
  let tip := mkToken (mkArc 1 7 1 true) (Some 0%nat) 1 (0 + 1 + 2) in
  let h : gmap addr Token :=
    <[1%nat := tip]> (<[0%nat := incr_ref_count root]> {[ 0%nat := root ]}) in
  cost_monotone h.
Proof.
  intros root tip h. refine (proj1 (chain_cost_monotone h _)).
  apply (built_new _ root 1%nat (mkArc 1 7 1 true) 2 (Some 0%nat)
           {[ 0%nat := root ]} h).
  - apply (built_new_noac _ root 0%nat (mkArc 0 0 0 false) None ∅);
      [constructor|done|reflexivity].
  - done.
  - done.
  - vm_compute. reflexivity.
Defined.

(** ** The active-state index *)

Lemma lookup_state_None s (toks : list Elem) :
  lookup_state s toks = None ↔ s ∉ toks.*1.
Proof.
  induction toks as [|[s' h] toks IH]; cbn.
  - split; [intros _; apply not_elem_of_nil|done].
  - rewrite not_elem_of_cons. destruct (decide (s' = s)) as [->|Hne].
    + split; [done|]. by intros [? _].
    + rewrite IH. split; [intros ?; split; [congruence|done]|by intros [_ ?]].
Qed.

Lemma lookup_state_elem s h (toks : list Elem) :
  lookup_state s toks = Some h → (s, h) ∈ toks.
Proof.
  induction toks as [|[s' h'] toks IH]; cbn; [done|].
  destruct (decide (s' = s)) as [->|Hne].
  - intros [= ->]. apply list_elem_of_here.
  - intros H. apply list_elem_of_further. by apply IH.
Qed.

Lemma elem_lookup_state s h (toks : list Elem) :
  NoDup toks.*1 → (s, h) ∈ toks → lookup_state s toks = Some h.
Proof.
  induction toks as [|[s' h'] toks IH]; cbn.
  - intros _ H. by apply elem_of_nil in H.
  - rewrite NoDup_cons. intros [Hnotin Hnd] [[= -> ->]|Hin]%elem_of_cons.
    + by rewrite decide_True.
    + destruct (decide (s' = s)) as [->|Hne]; [|by apply IH].
      exfalso. apply Hnotin. apply list_elem_of_fmap. by exists (s, h).
Qed.

Lemma replace_state_keys s h (toks : list Elem) :
  (replace_state s h toks).*1 = toks.*1.
Proof.
  induction toks as [|[s' h'] toks IH]; cbn; [done|].
  destruct (decide (s' = s)); cbn; [done|]. by rewrite IH.
Qed.

Lemma lookup_replace_state s h s' (toks : list Elem) :
  lookup_state s' (replace_state s h toks) =
    if decide (s' = s) then (λ _, h) <$> lookup_state s toks else lookup_state s' toks.
Proof.
  induction toks as [|[s0 h0] toks IH]; cbn.
  - by destruct (decide (s' = s)).
  - destruct (decide (s0 = s)) as [->|Hne]; cbn.
    + destruct (decide (s = s')) as [->|]; [by rewrite decide_True|].
      by rewrite decide_False by congruence.
    + destruct (decide (s0 = s')) as [->|]; [by rewrite decide_False|].
      apply IH.
Qed.

Lemma upsert_keys s h (toks : list Elem) :
  (upsert s h toks).*1 =
    match lookup_state s toks with Some _ => toks.*1 | None => s :: toks.*1 end.
Proof.
  unfold upsert. destruct (lookup_state s toks) as [old|]; [|done].
  destruct (decide _); [apply replace_state_keys|done].
Qed.

Lemma upsert_NoDup s h (toks : list Elem) :
  NoDup toks.*1 → NoDup (upsert s h toks).*1.
Proof.
  intros Hnd. rewrite upsert_keys.
  destruct (lookup_state s toks) eqn:E; [done|].
  apply NoDup_cons. split; [by apply lookup_state_None|done].
Qed.

Lemma lookup_upsert s h (toks : list Elem) :
  lookup_state s (upsert s h toks) = Some (kept h (lookup_state s toks)).
Proof.
  unfold upsert, kept. destruct (lookup_state s toks) as [old|] eqn:E.
  - destruct (decide _); [|done].
    by rewrite lookup_replace_state, decide_True, E.
  - cbn. by rewrite decide_True.
Qed.

Lemma lookup_upsert_ne s h s' (toks : list Elem) :
  s' ≠ s → lookup_state s' (upsert s h toks) = lookup_state s' toks.
Proof.
  intros Hne. unfold upsert. destruct (lookup_state s toks) as [old|] eqn:E.
  - destruct (decide _); [|done].
    by rewrite lookup_replace_state, decide_False.
  - cbn. by rewrite decide_False by congruence.
Qed.

Lemma best_of_upsert seen toks s h :
  best_of seen toks → best_of (seen ++ [(s, h)]) (upsert s h toks).
Proof.
  intros Hbest s'. destruct (decide (s' = s)) as [->|Hne].
  - rewrite lookup_upsert. specialize (Hbest s). unfold kept.
    destruct (lookup_state s toks) as [old|].
    + destruct Hbest as [Hin Hmin]. destruct (decide _) as [Hlt|Hnlt].
      * split; [set_solver|]. intros h' [Hh'|Hh']%elem_of_app.
        -- apply Qlt_le_weak. eapply Qlt_le_trans; [exact Hlt|by apply Hmin].
        -- apply list_elem_of_singleton in Hh'. injection Hh' as ->.
           apply Qle_refl.
      * split; [set_solver|]. intros h' [Hh'|Hh']%elem_of_app; [by apply Hmin|].
        apply list_elem_of_singleton in Hh'. injection Hh' as ->.
        by apply Qnot_lt_le.
    + split; [set_solver|]. intros h' [Hh'|Hh']%elem_of_app.
      * by apply Hbest in Hh'.
      * apply list_elem_of_singleton in Hh'. injection Hh' as ->.
        apply Qle_refl.
  - rewrite lookup_upsert_ne by done. specialize (Hbest s').
    assert (∀ h', (s', h') ∈ seen ++ [(s, h)] ↔ (s', h') ∈ seen) as Hsame.
    { intros h'. rewrite elem_of_app, list_elem_of_singleton.
      split; [intros [?|[= ? ?]]; [done|congruence]|auto]. }
    destruct (lookup_state s' toks) as [old|].
    + destruct Hbest as [Hin Hmin]. split; [by apply Hsame|].
      intros h' Hh'. apply Hmin. by apply Hsame.
    + intros h' Hh'. apply (Hbest h'). by apply Hsame.
Qed.

Lemma best_of_fold cands : ∀ seen toks,
  best_of seen toks →
  best_of (seen ++ cands) (fold_left (λ toks e, upsert e.1 e.2 toks) cands toks).
Proof.
  induction cands as [|[s h] cands IH]; intros seen toks Hbest; cbn.
  - by rewrite app_nil_r.
  - specialize (IH (seen ++ [(s, h)]) (upsert s h toks)
                  (best_of_upsert _ _ _ _ Hbest)).
    by rewrite <- app_assoc in IH.
Qed.

Lemma NoDup_fold_upsert cands : ∀ toks,
  NoDup toks.*1 →
  NoDup (fold_left (λ toks e, upsert e.1 e.2 toks) cands toks).*1.
Proof.
  induction cands as [|e cands IH]; intros toks Hnd; cbn; [done|].
  apply IH. by apply upsert_NoDup.
Qed.

Lemma fold_left_invariant {A B} (P : A → Prop) (f : A → B → A) (l : list B) :
  (∀ acc x, x ∈ l → P acc → P (f acc x)) → ∀ acc, P acc → P (fold_left f l acc).
Proof.
  induction l as [|x l IH]; intros Hstep acc Hacc; cbn; [done|].
  apply IH.
  - intros acc' y Hy. apply Hstep. by apply list_elem_of_further.
  - apply Hstep; [apply list_elem_of_here|done].
Qed.

Lemma emit_from_NoDup g d frame cutoff (next : list Elem) e :
  NoDup next.*1 → NoDup (emit_from g d frame cutoff next e).*1.
Proof.
  intros Hnd. unfold emit_from. destruct (decide _); [|done].
  apply (fold_left_invariant (λ toks : list Elem, NoDup toks.*1)); [|done].
  intros acc a _ Hacc. unfold emit_arc.
  destruct (emitting a); [by apply upsert_NoDup|done].
Qed.

Lemma relax_arc_NoDup cutoff src (st : list Elem * list Z) a :
  NoDup st.1.*1 → NoDup (relax_arc cutoff src st a).1.*1.
Proof.
  intros Hnd. unfold relax_arc. destruct (emitting a); [done|].
  destruct (_ && _); [by apply upsert_NoDup|done].
Qed.

Lemma nonemitting_loop_NoDup fuel g cutoff : ∀ toks queue toks',
  nonemitting_loop fuel g cutoff toks queue = Done toks' →
  NoDup toks.*1 → NoDup toks'.*1.
Proof.
  induction fuel as [|fuel IH]; intros toks [|s queue] toks'; cbn;
    try done; try (by intros [= <-]).
  destruct (lookup_state s toks) as [src|]; [|by apply IH].
  intros Hloop Hnd. eapply IH; [done|].
  apply (fold_left_invariant (λ st : list Elem * list Z, NoDup st.1.*1));
    [|done].
  intros acc a _. apply relax_arc_NoDup.
Qed.

Lemma decode_frame_NoDup fuel d dec dec' :
  decode_frame fuel d dec = Done dec' → NoDup (toks_ dec').*1.
Proof.
  unfold decode_frame, ProcessEmitting, ProcessNonemitting. cbn.
  destruct (toks_ dec) as [|first rest] eqn:Htoks; cbn.
  - intros [= <-]. cbn. constructor.
  - destruct (GetCutoff _ _ _ _) as [r| | |]; cbn; try done.
    destruct (nonemitting_loop _ _ _ _ _) as [toks'| | |] eqn:Hloop; cbn;
      try done.
    intros [= <-]. cbn. eapply nonemitting_loop_NoDup; [done|].
    apply (fold_left_invariant (λ toks : list Elem, NoDup toks.*1));
      [|apply emit_from_NoDup; constructor].
    intros acc e _. apply emit_from_NoDup.
Qed.

(** C2.  A generation of the active-state index has at most one entry per
    state; an upsert replaces the stored hypothesis only by one of strictly
    lower cumulative cost; so the entry of a state is a least-cost candidate
    among all those upserted for that state in the generation.  The
    generations the decoder produces have one entry per state. *)
Theorem active_index_invariant :
  (∀ cands, NoDup (generation cands).*1 ∧ best_of cands (generation cands)) ∧
  (∀ s h toks,
     NoDup toks.*1 →
     NoDup (upsert s h toks).*1 ∧
     lookup_state s (upsert s h toks) = Some (kept h (lookup_state s toks)) ∧
     ∀ s', s' ≠ s → lookup_state s' (upsert s h toks) = lookup_state s' toks) ∧
  (∀ dec, NoDup (toks_ (InitDecoding dec)).*1) ∧
  (∀ fuel d dec dec',
     decode_frame fuel d dec = Done dec' → NoDup (toks_ dec').*1).
Proof.
  split; [|split; [|split]].
  - intros cands. split.
    + apply NoDup_fold_upsert. constructor.
    + apply (best_of_fold cands [] []). intros s h'. apply not_elem_of_nil.
  - intros s h toks Hnd. split; [by apply upsert_NoDup|].
    split; [apply lookup_upsert|]. intros s' Hne. by apply lookup_upsert_ne.
  - intros dec. cbn. apply NoDup_singleton.
  - apply decode_frame_NoDup.
Qed.

Lemma active_index_invariant_witness :
  let cheap := mkHyp (mkArc 1 7 1 true) None 2 in
  let dear := mkHyp (mkArc 1 8 1 true) None (7#2) in
  lookup_state 1 (upsert 1 dear [(1%Z, cheap)]) = Some cheap ∧
  lookup_state 1 (upsert 1 cheap [(1%Z, dear)]) = Some cheap.
Proof.
  intros cheap dear.
  pose proof (proj1 (proj2 active_index_invariant)) as H.
  split.
  - refine (proj1 (proj2 (H 1%Z dear [(1%Z, cheap)] _))). apply NoDup_singleton.
  - refine (proj1 (proj2 (H 1%Z cheap [(1%Z, dear)] _))). apply NoDup_singleton.
Defined.

(** ** Traceback *)










(** ** The cutoff engine *)

#[global] Instance Qle_total : Total Qle.
Proof. intros x y. destruct (Qlt_le_dec x y); [left; by apply Qlt_le_weak|by right]. Qed.

#[global] Instance Qle_transitive : Transitive Qle.
Proof. intros x y z. apply Qle_trans. Qed.

Lemma admitted_le_length c ws : (admitted c ws ≤ length ws)%nat.
Proof. apply length_filter. Qed.

Lemma admitted_Permutation c ws ws' : ws ≡ₚ ws' → admitted c ws = admitted c ws'.
Proof. intros H. unfold admitted. by rewrite H. Qed.

Lemma admitted_app c l1 l2 : admitted c (l1 ++ l2) = (admitted c l1 + admitted c l2)%nat.
Proof. unfold admitted. by rewrite filter_app, length_app. Qed.

Lemma admitted_all c ws : Forall (λ w, (w <= c)%Q) ws → admitted c ws = length ws.
Proof.
  unfold admitted. induction 1 as [|w ws Hw _ IH]; [done|].
  rewrite filter_cons_True by done. cbn. by rewrite IH.
Qed.

Lemma admitted_none c ws : Forall (λ w, (c < w)%Q) ws → admitted c ws = 0%nat.
Proof.
  unfold admitted. induction 1 as [|w ws Hw _ IH]; [done|].
  rewrite filter_cons_False; [done|]. by apply Qlt_not_le.
Qed.

Lemma admitted_mono c c' ws : (c <= c')%Q → (admitted c ws ≤ admitted c' ws)%nat.
Proof.
  intros Hle. unfold admitted. induction ws as [|w ws IH]; [done|].
  rewrite !filter_cons.
  destruct (decide (w <= c)%Q) as [Hw|Hw], (decide (w <= c')%Q) as [Hw'|Hw'];
    cbn; try lia.
  exfalso. apply Hw'. by eapply Qle_trans.
Qed.

Lemma distinct_costs_Permutation ws ws' :
  ws ≡ₚ ws' → distinct_costs ws → distinct_costs ws'.
Proof.
  induction 1 as [|x l l' Hperm IH|x y l|l l' l'' _ IH1 _ IH2]; cbn.
  - done.
  - intros [Hx Hd]. split; [by rewrite <- Hperm|by apply IH].
  - intros [Hy [Hx Hd]]. apply Forall_cons in Hy as [Hxy Hy].
    split; [|done]. apply Forall_cons. split; [|done].
    intros Heq. apply Hxy. by symmetry.
  - auto.
Qed.

Lemma distinct_costs_app_r l1 l2 : distinct_costs (l1 ++ l2) → distinct_costs l2.
Proof. induction l1 as [|x l1 IH]; cbn; [done|]. intros [_ ?]. by apply IH. Qed.

(** In a sorted list the element at index [i] admits at least [i + 1]
    candidates, and exactly that many when no two costs are equal. *)
Lemma admitted_sorted (l : list Q) i c :
  StronglySorted Qle l → l !! i = Some c →
  (S i ≤ admitted c l)%nat ∧ (distinct_costs l → admitted c l = S i).
Proof.
  intros Hsorted Hi.
  pose proof (take_drop_middle l i c Hi) as Hsplit.
  assert (length (take i l) = i) as Hlen.
  { apply length_take_le. apply lookup_lt_Some in Hi. lia. }
  rewrite <- Hsplit in Hsorted |- *.
  assert (Forall (λ w, (w <= c)%Q) (take i l)) as Hbefore.
  { apply Forall_forall. intros w Hw.
    eapply (StronglySorted_app_1_elem_of Qle); [done..|apply list_elem_of_here]. }
  apply StronglySorted_app_1_r, StronglySorted_inv in Hsorted as [_ Hafter].
  rewrite admitted_app, (admitted_all _ _ Hbefore), Hlen.
  change (c :: drop (S i) l) with ([c] ++ drop (S i) l).
  rewrite admitted_app.
  assert (admitted c [c] = 1%nat) as ->.
  { unfold admitted. rewrite filter_cons_True by apply Qle_refl. done. }
  split; [lia|]. intros Hd.
  apply distinct_costs_app_r in Hd. cbn in Hd. destruct Hd as [Hne _].
  rewrite admitted_none; [lia|].
  apply Forall_forall. intros w Hw.
  rewrite Forall_forall in Hne, Hafter.
  specialize (Hafter w Hw). apply Qle_lteq in Hafter as [Hlt|Heq]; [done|].
  exfalso. apply (Hne w Hw). by symmetry.
Qed.

Lemma scan_fold rest : ∀ b n,
  fold_left scan_step rest (b, n) =
  (fold_left (λ b e, if decide (cost_of e < cost_of b)%Q then e else b) rest b,
   (n + length rest)%nat).
Proof.
  induction rest as [|e rest IH]; intros b n; cbn.
  - f_equal. lia.
  - unfold scan_step at 2. cbn. rewrite IH. f_equal. lia.
Qed.

Lemma not_starved cfg ws c :
  starved cfg ws c = false ↔
  (min_active cfg ≤ Z.of_nat (admitted c ws))%Z ∨ admitted c ws = length ws.
Proof.
  unfold starved. rewrite andb_false_iff, !bool_decide_eq_false.
  pose proof (admitted_le_length c ws). split; intros [?|?]; (left + right); lia.
Qed.

Lemma relax_Done cfg ws fuel : ∀ c0 c,
  (0 < beam_delta cfg)%Q →
  relax fuel cfg ws c0 = Done c →
  starved cfg ws c = false ∧ (c = c0 ∨ (c0 < c)%Q).
Proof.
  induction fuel as [|fuel IH]; intros c0 c Hδ; cbn;
    destruct (starved cfg ws c0) eqn:Hs; try done.
  - intros [= <-]. auto.
  - intros Hrel. destruct (IH _ _ Hδ Hrel) as [Hns [->|Hlt]].
    + split; [done|]. right. lra.
    + split; [done|]. right. lra.
  - intros [= <-]. auto.
Qed.

Lemma relax_terminates cfg ws M :
  Forall (λ w, (w <= M)%Q) ws →
  ∀ n fuel c0, (n ≤ fuel)%nat →
    (M <= c0 + inject_Z (Z.of_nat n) * beam_delta cfg)%Q →
    ∃ c, relax fuel cfg ws c0 = Done c.
Proof.
  intros Hbound. induction n as [|n IH]; intros fuel c0 Hfuel HM.
  - assert (starved cfg ws c0 = false) as Hns.
    { apply not_starved. right. apply admitted_all.
      eapply Forall_impl; [done|]. cbn. intros w Hw.
      change (inject_Z (Z.of_nat 0)) with 0%Q in HM. lra. }
    exists c0. destruct fuel; cbn; by rewrite Hns.
  - destruct fuel as [|fuel]; [lia|]. cbn.
    destruct (starved cfg ws c0); [|by eexists].
    apply IH; [lia|].
    rewrite Nat2Z.inj_succ in HM. unfold Z.succ in HM.
    rewrite inject_Z_plus in HM. change (inject_Z 1) with 1%Q in HM. lra.
Qed.

Lemma costs_bounded (ws : list Q) : ∃ M, Forall (λ w, (w <= M)%Q) ws.
Proof.
  induction ws as [|w ws [M HM]]; [by exists 0%Q|].
  destruct (Qlt_le_dec M w) as [Hlt|Hle].
  - exists w. apply Forall_cons. split; [apply Qle_refl|].
    eapply Forall_impl; [done|]. cbn. intros x Hx. lra.
  - exists M. by apply Forall_cons.
Qed.

Lemma archimedean (x δ : Q) :
  (0 < δ)%Q → ∃ n : nat, (x <= inject_Z (Z.of_nat n) * δ)%Q.
Proof.
  intros Hδ. exists (Z.to_nat (Qceiling (x / δ))).
  assert (x / δ <= inject_Z (Z.of_nat (Z.to_nat (Qceiling (x / δ)))))%Q as Hle.
  { eapply Qle_trans; [apply Qle_ceiling|].
    rewrite <- Zle_Qle. lia. }
  apply (Qmult_le_compat_r _ _ δ) in Hle; [|lra].
  assert (x / δ * δ == x)%Q as Heq by (field; lra).
  by rewrite Heq in Hle.
Qed.

Lemma relax_returns cfg ws c0 :
  (0 < beam_delta cfg)%Q → ∃ fuel c, relax fuel cfg ws c0 = Done c.
Proof.
  intros Hδ. destruct (costs_bounded ws) as [M HM].
  destruct (archimedean (M - c0) (beam_delta cfg) Hδ) as [n Hn].
  destruct (relax_terminates cfg ws M HM n n c0) as [c Hc]; [done|lra|].
  by exists n, c.
Qed.

(** C1 fails as stated.  Two candidates of equal cost with
    [min_active = max_active = 1] are both admitted, although two candidates
    are not fewer than [min_active]; no cutoff at all admits exactly one.
    And with distinct costs 0, 100, 101, 102, beam 1, [beam_delta] 200 and
    [min_active = max_active = 2], one relaxation step admits all four. *)
Lemma GetCutoff_admits_more_than_max_active :
  let hyp (c : Q) := mkHyp (mkArc 1 7 1 true) None c in
  (let cfg := mkOptions 16 1 1 (1#2) 2 in
   let ws := cost_of <$> [(1%Z, hyp 1%Q); (2%Z, hyp 1%Q)] in
   (∃ r, GetCutoff 0 cfg (1%Z, hyp 1%Q) [(2%Z, hyp 1%Q)] = Done r ∧
         admitted (cutoffCost r) ws = 2%nat) ∧
   ¬ (length ws < Z.to_nat (min_active cfg))%nat ∧
   ∀ c, ¬ (min_active cfg ≤ Z.of_nat (admitted c ws) ≤ max_active cfg)%Z) ∧
  (let cfg := mkOptions 1 2 2 200 2 in
   let rest := [(2%Z, hyp 100%Q); (3%Z, hyp 101%Q); (4%Z, hyp 102%Q)] in
   let ws := cost_of <$> (1%Z, hyp 0%Q) :: rest in
   (∃ r, GetCutoff 1 cfg (1%Z, hyp 0%Q) rest = Done r ∧
         admitted (cutoffCost r) ws = 4%nat) ∧
   ¬ (length ws < Z.to_nat (min_active cfg))%nat).
Proof.
  intros hyp. split; [split; [|split]|split].
  - eexists. split; [vm_compute; reflexivity|]. vm_compute. reflexivity.
  - vm_compute. lia.
  - intros c. unfold admitted. cbn.
    destruct (decide (1 <= c)%Q); cbn; lia.
  - eexists. split; [vm_compute; reflexivity|]. vm_compute. reflexivity.
  - vm_compute. lia.
Qed.

(** C1, amended.  With [min_active <= max_active] and a positive
    [beam_delta], [GetCutoff] returns, and the number of candidates whose
    cost is [<=] the returned cutoff is at least [min_active], or is the
    whole candidate count when fewer than [min_active] candidates exist.  It
    is at most [max_active] when [max_active >= 1], no two candidates have
    the same cost and the cutoff was not relaxed beyond the beam. *)
Theorem GetCutoff_admitted cfg (first : Elem) (rest : list Elem) :
  (min_active cfg ≤ max_active cfg)%Z →
  (0 < beam_delta cfg)%Q →
  (∃ fuel r, GetCutoff fuel cfg first rest = Done r) ∧
  ∀ fuel r, GetCutoff fuel cfg first rest = Done r →
    let ws := cost_of <$> first :: rest in
    candidateCount r = length ws ∧
    (Z.min (min_active cfg) (Z.of_nat (length ws))
       ≤ Z.of_nat (admitted (cutoffCost r) ws))%Z ∧
    ((1 ≤ max_active cfg)%Z → distinct_costs ws →
     (effectiveBeam r <= beam cfg)%Q →
     (Z.of_nat (admitted (cutoffCost r) ws) ≤ max_active cfg)%Z).
Proof.
  intros Hminmax Hδ. unfold GetCutoff, scan. rewrite scan_fold.
  set (ws := cost_of <$> first :: rest).
  set (best := fold_left _ rest first).
  set (c0 := (cost_of best + beam cfg)%Q).
  assert ((1 + length rest)%nat = length ws) as Hcount
    by (unfold ws; cbn; by rewrite length_fmap).
  destruct (decide (max_active cfg < Z.of_nat (admitted c0 ws))%Z) as [Htight|Hbeam].
  - (* tightened to the [max_active]-th smallest cost *)
    split; [by exists 0%nat; eexists|].
    intros _ r [= <-]. cbv zeta. fold ws.
    cbn [cutoffCost candidateCount effectiveBeam].
    split; [done|].
    set (l := merge_sort Qle ws). set (i := Z.to_nat (max_active cfg - 1)).
    assert (l ≡ₚ ws) as Hperm by apply merge_sort_Permutation.
    pose proof (admitted_le_length c0 ws) as Hle.
    assert (i < length l)%nat as Hi by (rewrite Hperm; unfold i; lia).
    apply lookup_lt_is_Some in Hi as [c Hc]. rewrite Hc. cbn [from_option]. unfold id.
    rewrite <- (admitted_Permutation c _ _ Hperm).
    destruct (admitted_sorted l i c) as [Hlow Hexact];
      [by apply StronglySorted_merge_sort; apply _|done|].
    split; [unfold i in Hlow; lia|].
    intros Hmax Hdistinct _. rewrite Hexact; [unfold i; lia|].
    by apply (distinct_costs_Permutation ws).
  - (* the beam cutoff, relaxed while starved *)
    split.
    + destruct (relax_returns cfg ws c0 Hδ) as (n & c & Hc).
      exists n. eexists. by rewrite Hc.
    + intros fuel r.
      destruct (relax fuel cfg ws c0) as [c| | |] eqn:Hrel; [|done..].
      intros [= <-]. cbv zeta. fold ws.
      cbn [cutoffCost candidateCount effectiveBeam].
      split; [done|].
      apply relax_Done in Hrel as [Hns Hc]; [|done].
      apply not_starved in Hns. split; [lia|].
      intros _ _ Heff. destruct Hc as [->|Hlt]; [lia|]. unfold c0 in Hlt.
      lra.
Qed.

Lemma GetCutoff_admitted_witness :
  let cfg := mkOptions 16 2 1 (1#2) 2 in
  let hyp (c : Q) := mkHyp (mkArc 1 7 1 true) None c in
  let first := (1%Z, hyp 1%Q) in
  let rest := [(2%Z, hyp (6#5)); (3%Z, hyp (3#2))] in
  let ws := cost_of <$> first :: rest in
  ∃ r, GetCutoff 0 cfg first rest = Done r ∧
       (1 ≤ Z.of_nat (admitted (cutoffCost r) ws) ≤ 2)%Z.
Proof.
  intros cfg hyp first rest ws.
  pose (r := mkCutoff (6#5) first 3 ((6#5) - 1)).
  assert (GetCutoff 0 cfg first rest = Done r) as Hcut
    by (vm_compute; reflexivity).
  exists r. split; [done|].
  destruct (proj2 (GetCutoff_admitted cfg first rest ltac:(done) ltac:(done))
              0%nat r Hcut) as (_ & Hlow & Hup).
  split; [exact Hlow|]. apply Hup.
  - done.
  - cbn. repeat split; repeat constructor; intros H; vm_compute in H; lia.
  - vm_compute. discriminate.
Defined.

(** ** Termination of the non-emitting pass *)

Lemma on_grid_plus D q1 q2 : on_grid D q1 → on_grid D q2 → on_grid D (q1 + q2).
Proof.
  intros [z1 H1] [z2 H2]. exists (z1 + z2)%Z. rewrite H1, H2.
  unfold Qeq, Qplus. cbn. rewrite Pos2Z.inj_mul. ring.
Qed.

Lemma on_grid_divides D q k : D = (k * Qden q)%positive → on_grid D q.
Proof.
  intros ->. exists (Qnum q * Zpos k)%Z. destruct q as [n d].
  unfold Qeq. cbn. rewrite Pos2Z.inj_mul. ring.
Qed.

Lemma common_denominator_divides qs q :
  q ∈ qs → ∃ k, common_denominator qs = (k * Qden q)%positive.
Proof.
  induction qs as [|q' qs IH].
  - intros H. by apply elem_of_nil in H.
  - change (common_denominator (q' :: qs))
      with (Qden q' * common_denominator qs)%positive.
    intros [->|Hin]%elem_of_cons.
    + exists (common_denominator qs). apply Pos.mul_comm.
    + destruct (IH Hin) as [k ->]. exists (Qden q' * k)%positive.
      by rewrite Pos.mul_assoc.
Qed.

Lemma level_grid D q z : (q == z # D)%Q → level D q = z.
Proof.
  intros H. unfold level. rewrite <- (Qfloor_Z z). apply Qfloor_comp.
  rewrite H. unfold Qeq, Qmult, inject_Z. cbn. rewrite Pos2Z.inj_mul. ring.
Qed.

Lemma level_mono D q1 q2 : (q1 <= q2)%Q → (level D q1 ≤ level D q2)%Z.
Proof.
  intros H. apply Qfloor_resp_le. apply Qmult_le_compat_r; [done|].
  unfold Qle, inject_Z. cbn. lia.
Qed.

Lemma level_strict D q1 q2 :
  on_grid D q1 → on_grid D q2 → (q1 < q2)%Q → (level D q1 < level D q2)%Z.
Proof.
  intros [z1 H1] [z2 H2] Hlt.
  rewrite (level_grid _ _ _ H1), (level_grid _ _ _ H2).
  rewrite H1, H2 in Hlt. unfold Qlt in Hlt. cbn in Hlt.
  apply Z.mul_lt_mono_pos_r in Hlt; [done|lia].
Qed.

Lemma sum_list_with_le {A} (f f' : A → nat) (l : list A) :
  (∀ x, x ∈ l → f' x ≤ f x) → sum_list_with f' l ≤ sum_list_with f l.
Proof.
  induction l as [|x l IH]; intros Hle; cbn; [done|].
  pose proof (Hle x (list_elem_of_here _ _)).
  assert (sum_list_with f' l ≤ sum_list_with f l); [|lia].
  apply IH. intros y Hy. apply Hle. by apply list_elem_of_further.
Qed.

Lemma sum_list_with_lt {A} (f f' : A → nat) (l : list A) x0 :
  x0 ∈ l → f' x0 < f x0 → (∀ x, x ∈ l → f' x ≤ f x) →
  sum_list_with f' l < sum_list_with f l.
Proof.
  induction l as [|x l IH]; intros Hin Hlt Hle.
  - by apply elem_of_nil in Hin.
  - cbn. pose proof (Hle x (list_elem_of_here _ _)).
    assert (∀ y, y ∈ l → f' y ≤ f y) as Hle'
      by (intros y Hy; apply Hle; by apply list_elem_of_further).
    apply elem_of_cons in Hin as [->|Hin].
    + pose proof (sum_list_with_le f f' l Hle'). lia.
    + pose proof (IH Hin Hlt Hle'). lia.
Qed.

Lemma arcs_of_all_arcs g s a : a ∈ arcs_of g s → a ∈ all_arcs g.
Proof.
  unfold arcs_of, state_of, all_arcs. destruct (s <? 0)%Z.
  { intros H. by apply elem_of_nil in H. }
  destruct (states g !! Z.to_nat s) as [[arcs f]|] eqn:Hs.
  - intros Ha. apply list_elem_of_bind. exists (arcs, f). split; [done|].
    by eapply list_elem_of_lookup_2.
  - intros H. by apply elem_of_nil in H.
Qed.

Lemma enqueue_length s queue : length (enqueue s queue) ≤ S (length queue).
Proof.
  unfold enqueue. destruct (decide _); [lia|]. rewrite length_app. cbn. lia.
Qed.

Section nonemitting_pass.
Variables (g : Fst) (D : positive) (lo cutoff : Q).
Hypothesis weights_on_grid : ∀ a, a ∈ all_arcs g → on_grid D (weight a).
Hypothesis weights_nonneg : nonneg_weights g.

Lemma upsert_improves dst cand toks :
  improves dst cand toks = true →
  lookup_state dst (upsert dst cand toks) = Some cand.
Proof.
  intros Himp. rewrite lookup_upsert. f_equal. unfold improves, kept in *.
  destruct (lookup_state dst toks) as [old|]; [|done].
  apply bool_decide_eq_true in Himp. by rewrite decide_True.
Qed.

Lemma upsert_grounded dst cand toks :
  on_grid D (cumulativeCost cand) → (lo <= cumulativeCost cand)%Q →
  improves dst cand toks = true →
  grounded D lo toks → grounded D lo (upsert dst cand toks).
Proof.
  intros Hgrid Hlo Himp Hg s h.
  destruct (decide (s = dst)) as [->|Hne].
  - rewrite upsert_improves by done. by intros [= <-].
  - rewrite lookup_upsert_ne by done. apply Hg.
Qed.

Lemma upsert_rank dst cand toks :
  on_grid D (cumulativeCost cand) → (lo <= cumulativeCost cand)%Q →
  (cumulativeCost cand <= cutoff)%Q →
  improves dst cand toks = true →
  grounded D lo toks →
  rank D lo cutoff (upsert dst cand toks) dst < rank D lo cutoff toks dst ∧
  ∀ s, s ≠ dst →
    rank D lo cutoff (upsert dst cand toks) s = rank D lo cutoff toks s.
Proof.
  intros Hgrid Hlo Hcut Himp Hg. split.
  - unfold rank. rewrite upsert_improves by done.
    pose proof (level_mono D _ _ Hlo) as Hfloor.
    unfold improves in Himp.
    destruct (lookup_state dst toks) as [old|] eqn:Hold.
    + apply bool_decide_eq_true in Himp.
      destruct (Hg dst old Hold) as [Hgrid' _].
      pose proof (level_strict D _ _ Hgrid Hgrid' Himp). lia.
    + unfold vacant_rank. pose proof (level_mono D _ _ Hcut). lia.
  - intros s Hne. unfold rank. by rewrite lookup_upsert_ne.
Qed.

Lemma relax_arc_work src st a :
  a ∈ all_arcs g →
  on_grid D (cumulativeCost src) → (lo <= cumulativeCost src)%Q →
  grounded D lo st.1 →
  grounded D lo (relax_arc cutoff src st a).1 ∧
  work g D lo cutoff (relax_arc cutoff src st a) ≤ work g D lo cutoff st.
Proof.
  intros Ha Hgrid Hlo Hg. unfold relax_arc.
  destruct (emitting a); [done|].
  set (cand := create a (Some src) None).
  destruct (bool_decide _ && _) eqn:Hcond; [|done].
  apply andb_true_iff in Hcond as [Hcut Himp].
  apply bool_decide_eq_true in Hcut.
  assert (on_grid D (cumulativeCost cand)) as Hgrid'
    by (apply on_grid_plus; [done|by apply weights_on_grid]).
  assert (lo <= cumulativeCost cand)%Q as Hlo'.
  { pose proof (weights_nonneg a Ha). cbn. lra. }
  split; [by apply upsert_grounded|].
  destruct (upsert_rank (nextstate a) cand st.1) as [Hlt Hsame]; try done.
  unfold work, potential. cbn [fst snd].
  pose proof (enqueue_length (nextstate a) st.2).
  assert (sum_list_with (rank D lo cutoff (upsert (nextstate a) cand st.1))
            (nextstate <$> all_arcs g)
          < sum_list_with (rank D lo cutoff st.1) (nextstate <$> all_arcs g));
    [|lia].
  apply (sum_list_with_lt _ _ _ (nextstate a)).
  - apply list_elem_of_fmap. by exists a.
  - done.
  - intros s _. destruct (decide (s = nextstate a)) as [->|Hne]; [lia|].
    by rewrite Hsame.
Qed.

Lemma relax_arcs_work src arcs st :
  (∀ a, a ∈ arcs → a ∈ all_arcs g) →
  on_grid D (cumulativeCost src) → (lo <= cumulativeCost src)%Q →
  grounded D lo st.1 →
  let st' := fold_left (relax_arc cutoff src) arcs st in
  grounded D lo st'.1 ∧ work g D lo cutoff st' ≤ work g D lo cutoff st.
Proof.
  intros Harcs Hgrid Hlo Hg.
  apply (fold_left_invariant
           (λ st', grounded D lo st'.1
                   ∧ work g D lo cutoff st' ≤ work g D lo cutoff st));
    [|done].
  intros acc a Ha [Hacc Hwork].
  destruct (relax_arc_work src acc a) as [Hg' Hwork']; auto. split; [done|lia].
Qed.

Lemma nonemitting_loop_terminates fuel : ∀ toks queue,
  grounded D lo toks →
  work g D lo cutoff (toks, queue) ≤ fuel →
  ∃ toks', nonemitting_loop fuel g cutoff toks queue = Done toks'.
Proof.
  induction fuel as [|fuel IH]; intros toks [|s pending] Hg Hwork;
    try (by eexists).
  - unfold work in Hwork. cbn in Hwork. lia.
  - cbn [nonemitting_loop].
    destruct (lookup_state s toks) as [src|] eqn:Hsrc.
    + destruct (Hg s src Hsrc) as [Hgrid Hlo].
      destruct (relax_arcs_work src (arcs_of g s) (toks, pending))
        as [Hg' Hwork']; try done.
      { intros a. apply arcs_of_all_arcs. }
      apply IH; [done|].
      set (st' := fold_left _ _ _) in *.
      assert (work g D lo cutoff (st'.1, st'.2) = work g D lo cutoff st')
        as -> by (by destruct st').
      unfold work in *. cbn [fst snd length] in *. lia.
    + apply IH; [done|]. unfold work in *. cbn [fst snd length] in *. lia.
Qed.
End nonemitting_pass.

Lemma costs_bounded_below (ws : list Q) : ∃ m, Forall (λ w, (m <= w)%Q) ws.
Proof.
  induction ws as [|w ws [m Hm]]; [by exists 0%Q|].
  destruct (Qlt_le_dec w m) as [Hlt|Hle].
  - exists w. apply Forall_cons. split; [apply Qle_refl|].
    eapply Forall_impl; [done|]. cbn. intros x Hx. lra.
  - exists m. by apply Forall_cons.
Qed.

(** A grid and a floor that fit the weights of the graph and the costs of a
    generation. *)
Lemma grounding_exists (g : Fst) (toks : list Elem) :
  ∃ D lo, (∀ a, a ∈ all_arcs g → on_grid D (weight a)) ∧ grounded D lo toks.
Proof.
  set (qs := (cost_of <$> toks) ++ (weight <$> all_arcs g)).
  destruct (costs_bounded_below (cost_of <$> toks)) as [lo Hlo].
  exists (common_denominator qs), lo. split.
  - intros a Ha.
    destruct (common_denominator_divides qs (weight a)) as [k Hk].
    + apply elem_of_app. right. apply list_elem_of_fmap. by exists a.
    + by apply (on_grid_divides _ _ k).
  - intros s h Hsh. apply lookup_state_elem in Hsh.
    assert (cumulativeCost h ∈ cost_of <$> toks) as Hin
      by (apply list_elem_of_fmap; by exists (s, h)).
    split.
    + destruct (common_denominator_divides qs (cumulativeCost h)) as [k Hk].
      * apply elem_of_app. by left.
      * by apply (on_grid_divides _ _ k).
    + rewrite Forall_forall in Hlo. by apply Hlo.
Qed.

(** C6.  On every graph whose transition weights are all non-negative the
    non-emitting pass terminates, whatever the cutoff and the active
    generation it starts from: given enough fuel the work-queue loop reaches
    the empty queue and returns. *)
Theorem ProcessNonemitting_terminates (cutoff : Q) (dec : FasterDecoder) :
  nonneg_weights (fst_ dec) →
  ∃ fuel0, ∀ fuel, fuel0 ≤ fuel →
    ∃ dec', ProcessNonemitting fuel cutoff dec = Done dec'.
Proof.
  intros Hnonneg.
  destruct (grounding_exists (fst_ dec) (toks_ dec)) as (D & lo & Hgrid & Hg).
  exists (work (fst_ dec) D lo cutoff (toks_ dec, (toks_ dec).*1)).
  intros fuel Hfuel. unfold ProcessNonemitting.
  destruct (nonemitting_loop_terminates (fst_ dec) D lo cutoff Hgrid Hnonneg
              fuel (toks_ dec) (toks_ dec).*1 Hg Hfuel) as [toks' ->].
  by eexists.
Qed.

Lemma ProcessNonemitting_terminates_witness :
  let g := mkFst 0 [([mkArc 1 7 0 false], None);
                    ([mkArc 0 8 0 false; mkArc 2 9 (1#3) false], None);
                    ([mkArc 0 5 (1#2) false], Some 0%Q)] in
  let root := mkHyp (mkArc 0 0 0 false) None 0 in
  let dec := mkDecoder g default_options [(0%Z, root)] 0 in
  ∃ fuel0, ∀ fuel, fuel0 ≤ fuel →
    ∃ dec', ProcessNonemitting fuel 16 dec = Done dec'.
Proof.
  intros g root dec. apply ProcessNonemitting_terminates.
  intros a Ha. unfold all_arcs in Ha. cbn in Ha.
  repeat (apply elem_of_cons in Ha as [->|Ha]; [done|]).
  by apply elem_of_nil in Ha.
Defined.

(** ** More fuel changes no result *)

Lemma relax_more_fuel cfg ws fuel : ∀ fuel' c0 c,
  fuel ≤ fuel' → relax fuel cfg ws c0 = Done c → relax fuel' cfg ws c0 = Done c.
Proof.
  induction fuel as [|fuel IH]; intros [|fuel'] c0 c Hle; cbn;
    destruct (starved cfg ws c0); try done; try lia.
  apply IH. lia.
Qed.

Lemma GetCutoff_more_fuel cfg first rest fuel fuel' r :
  fuel ≤ fuel' → GetCutoff fuel cfg first rest = Done r →
  GetCutoff fuel' cfg first rest = Done r.
Proof.
  intros Hle. unfold GetCutoff. destruct (scan first rest) as [best count].
  destruct (decide _); [done|].
  destruct (relax fuel _ _ _) as [c| | |] eqn:Hrel; [|done..].
  by rewrite (relax_more_fuel _ _ _ _ _ _ Hle Hrel).
Qed.

Lemma nonemitting_loop_more_fuel g cutoff fuel : ∀ fuel' toks queue toks',
  fuel ≤ fuel' → nonemitting_loop fuel g cutoff toks queue = Done toks' →
  nonemitting_loop fuel' g cutoff toks queue = Done toks'.
Proof.
  induction fuel as [|fuel IH]; intros [|fuel'] toks [|s pending] toks' Hle;
    cbn; try done; try lia.
  destruct (lookup_state s toks); apply IH; lia.
Qed.

Lemma decode_frame_more_fuel d dec fuel fuel' dec' :
  fuel ≤ fuel' → decode_frame fuel d dec = Done dec' →
  decode_frame fuel' d dec = Done dec'.
Proof.
  intros Hle. unfold decode_frame, ProcessEmitting, ProcessNonemitting.
  cbn [drain]. destruct (toks_ dec) as [|first rest]; [done|].
  destruct (GetCutoff fuel _ _ _) as [r| | |] eqn:Hcut; [|done..].
  rewrite (GetCutoff_more_fuel _ _ _ _ _ _ Hle Hcut).
  cbn [mbind outcome_bind fst snd toks_ fst_ config_ num_frames_decoded_].
  destruct (nonemitting_loop fuel _ _ _ _) as [toks'| | |] eqn:Hloop; [|done..].
  by rewrite (nonemitting_loop_more_fuel _ _ _ _ _ _ _ Hle Hloop).
Qed.

Lemma advance_loop_more_fuel d target n : ∀ dec fuel fuel' r,
  fuel ≤ fuel' → advance_loop fuel d target n dec = Done r →
  advance_loop fuel' d target n dec = Done r.
Proof.
  induction n as [|n IH]; intros dec fuel fuel' r Hle; cbn [advance_loop];
    destruct (decide _); try done.
  destruct (decode_frame fuel d dec) as [dec'| | |] eqn:Hframe; [|done..].
  rewrite (decode_frame_more_fuel _ _ _ _ _ Hle Hframe).
  cbn [mbind outcome_bind]. by apply IH.
Qed.

(** ** Frame-by-frame decoding *)

Lemma ProcessEmitting_counter fuel d dec c dec' :
  ProcessEmitting fuel d dec = Done (c, dec') →
  num_frames_decoded_ dec' = (num_frames_decoded_ dec + 1)%Z.
Proof.
  unfold ProcessEmitting. cbn. destruct (toks_ dec) as [|first rest].
  - by intros [= _ <-].
  - destruct (GetCutoff _ _ _ _); cbn; try done. by intros [= _ <-].
Qed.

Lemma ProcessNonemitting_counter fuel cutoff dec dec' :
  ProcessNonemitting fuel cutoff dec = Done dec' →
  num_frames_decoded_ dec' = num_frames_decoded_ dec.
Proof.
  unfold ProcessNonemitting.
  destruct (nonemitting_loop _ _ _ _ _); cbn; try done. by intros [= <-].
Qed.

Lemma decode_frame_counter fuel d dec dec' :
  decode_frame fuel d dec = Done dec' →
  num_frames_decoded_ dec' = (num_frames_decoded_ dec + 1)%Z.
Proof.
  unfold decode_frame.
  destruct (ProcessEmitting fuel d dec) as [[c dec1]| | |] eqn:Hemit;
    cbn; try done.
  apply ProcessEmitting_counter in Hemit. destruct c as [cutoff|].
  - intros Hnon. apply ProcessNonemitting_counter in Hnon. congruence.
  - intros [= <-]. done.
Qed.

(** A frame leaves the graph and the configuration alone. *)
Lemma decode_frame_fixed fuel d dec dec' :
  decode_frame fuel d dec = Done dec' →
  fst_ dec' = fst_ dec ∧ config_ dec' = config_ dec.
Proof.
  unfold decode_frame, ProcessEmitting, ProcessNonemitting. cbn [drain].
  destruct (toks_ dec) as [|first rest]; [by intros [= <-]|].
  destruct (GetCutoff fuel _ _ _) as [r| | |]; [|done..].
  cbn [mbind outcome_bind fst snd toks_ fst_ config_ num_frames_decoded_].
  destruct (nonemitting_loop fuel _ _ _ _) as [toks'| | |]; [|done..].
  by intros [= <-].
Qed.

(** With non-negative weights and a positive [beam_delta] a frame is
    decoded, given enough fuel. *)
Lemma decode_frame_returns d dec :
  nonneg_weights (fst_ dec) → (0 < beam_delta (config_ dec))%Q →
  ∃ fuel dec', decode_frame fuel d dec = Done dec'.
Proof.
  intros Hnonneg Hδ. unfold decode_frame, ProcessEmitting, ProcessNonemitting.
  cbn [drain]. destruct (toks_ dec) as [|first rest]; [by exists 0%nat; eexists|].
  assert (∃ fuel r, GetCutoff fuel (config_ dec) first rest = Done r)
    as (f1 & r & Hcut).
  { unfold GetCutoff. destruct (scan first rest) as [best count].
    destruct (decide _); [by exists 0%nat; eexists|].
    destruct (relax_returns (config_ dec) (cost_of <$> first :: rest)
                (cost_of best + beam (config_ dec))%Q Hδ) as (k & c & Hc).
    exists k. eexists. by rewrite Hc. }
  set (next := fold_left (emit_from (fst_ dec) d (num_frames_decoded_ dec)
                            (cutoffCost r)) (first :: rest) []).
  destruct (grounding_exists (fst_ dec) next) as (D & lo & Hgrid & Hg).
  set (f2 := work (fst_ dec) D lo (cutoffCost r) (next, next.*1)).
  destruct (nonemitting_loop_terminates (fst_ dec) D lo (cutoffCost r) Hgrid
              Hnonneg f2 next next.*1 Hg (le_n _)) as [toks' Hloop].
  exists (f1 `max` f2). eexists.
  rewrite (GetCutoff_more_fuel _ _ _ f1 _ r) by (done || lia).
  cbn [mbind outcome_bind fst snd toks_ fst_ config_ num_frames_decoded_].
  fold next.
  rewrite (nonemitting_loop_more_fuel _ _ f2 _ _ _ toks') by (done || lia).
  reflexivity.
Qed.

Lemma advance_loop_returns d target n : ∀ dec,
  nonneg_weights (fst_ dec) → (0 < beam_delta (config_ dec))%Q →
  (target - num_frames_decoded_ dec ≤ Z.of_nat n)%Z →
  ∃ fuel r, advance_loop fuel d target n dec = Done r.
Proof.
  induction n as [|n IH]; intros dec Hnonneg Hδ Hn; cbn [advance_loop].
  - rewrite decide_False by lia. by exists 0%nat; eexists.
  - destruct (decide _) as [Hlt|]; [|by exists 0%nat; eexists].
    destruct (decode_frame_returns d dec Hnonneg Hδ) as (f1 & dec' & Hframe).
    destruct (decode_frame_fixed _ _ _ _ Hframe) as [Hg Hc].
    pose proof (decode_frame_counter _ _ _ _ Hframe) as Hcount.
    destruct (IH dec') as (f2 & r & Hrest); [by rewrite Hg|by rewrite Hc|lia|].
    exists (f1 `max` f2), r.
    rewrite (decode_frame_more_fuel _ _ f1 _ dec') by (done || lia).
    cbn [mbind outcome_bind].
    apply (advance_loop_more_fuel _ _ _ _ f2); [lia|done].
Qed.

(** A call with [max_num_frames = 1] while frames remain decodes exactly one
    frame. *)
Lemma AdvanceDecoding_one fuel d dec :
  (num_frames_decoded_ dec < NumFramesReady d)%Z →
  AdvanceDecoding fuel d 1 dec = decode_frame fuel d dec.
Proof.
  intros Hlt. unfold AdvanceDecoding. cbn [Z.leb Z.compare].
  rewrite Z.min_r by lia.
  replace (Z.to_nat _) with 1%nat by lia.
  cbn [advance_loop]. rewrite decide_True by lia.
  destruct (decode_frame fuel d dec) as [dec'| | |] eqn:Hframe; cbn; try done.
  apply decode_frame_counter in Hframe. rewrite decide_False by lia. done.
Qed.

Lemma advance_each_loop fuel d n : ∀ dec,
  (num_frames_decoded_ dec + Z.of_nat n = NumFramesReady d)%Z →
  advance_each fuel d n dec = advance_loop fuel d (NumFramesReady d) n dec.
Proof.
  induction n as [|n IH]; intros dec Hn; cbn [advance_each advance_loop].
  - by rewrite decide_False by lia.
  - rewrite decide_True by lia. rewrite AdvanceDecoding_one by lia.
    destruct (decode_frame fuel d dec) as [dec'| | |] eqn:Hframe; cbn; try done.
    apply IH. apply decode_frame_counter in Hframe. lia.
Qed.

(** C8.  After [InitDecoding], calling [AdvanceDecoding] one frame at a time,
    once per ready frame, has the same outcome as a single [Decode] over the
    same frames: the same decoder state, hence the same active generation,
    frame counter and best path.  With non-negative weights and a positive
    [beam_delta] both return a decoder state, given enough fuel. *)
Theorem incremental_equivalence (fuel : nat) (d : Decodable) (dec : FasterDecoder) :
  advance_each fuel d (Z.to_nat (NumFramesReady d)) (InitDecoding dec)
  = Decode fuel d dec ∧
  (∀ r1 r2 use_final_probs,
     advance_each fuel d (Z.to_nat (NumFramesReady d)) (InitDecoding dec)
       = Done r1 →
     Decode fuel d dec = Done r2 →
     toks_ r1 = toks_ r2 ∧
     NumFramesDecoded r1 = NumFramesDecoded r2 ∧
     GetBestPath r1 use_final_probs = GetBestPath r2 use_final_probs) ∧
  (nonneg_weights (fst_ dec) → (0 < beam_delta (config_ dec))%Q →
   ∃ fuel' r,
     Decode fuel' d dec = Done r ∧
     advance_each fuel' d (Z.to_nat (NumFramesReady d)) (InitDecoding dec)
       = Done r).
Proof.
  assert (∀ fuel,
            advance_each fuel d (Z.to_nat (NumFramesReady d)) (InitDecoding dec)
            = Decode fuel d dec) as Heq.
  { intros f. unfold Decode.
    destruct (decide (0 <= NumFramesReady d)%Z) as [Hpos|Hneg].
    - apply advance_each_loop. cbn. lia.
    - replace (Z.to_nat (NumFramesReady d)) with 0%nat by lia. cbn.
      by rewrite decide_False by lia. }
  split; [done|]. split.
  - intros r1 r2 b H1 H2. rewrite Heq, H2 in H1. by injection H1 as <-.
  - intros Hnonneg Hδ.
    destruct (advance_loop_returns d (NumFramesReady d)
                (Z.to_nat (NumFramesReady d)) (InitDecoding dec))
      as (f & r & Hr); [done|done|cbn; lia|].
    exists f, r. by rewrite Heq.
Qed.

Lemma incremental_equivalence_witness :
  let g := mkFst 0 [([mkArc 1 7 1 true], None);
                    ([mkArc 1 8 (1#2) true; mkArc 0 9 0 false], Some 0%Q)] in
  let d := mkDecodable 3 (λ _ _, 2%Q) in
  let dec := mkDecoder g default_options [] 0 in
  (∃ r, advance_each 10 d 3 (InitDecoding dec) = Done r ∧
        Decode 10 d dec = Done r ∧
        GetBestPath r true = Some [7; 8; 8]%Z) ∧
  ∃ fuel' r, Decode fuel' d dec = Done r.
Proof.
  intros g d dec.
  destruct (incremental_equivalence 10 d dec) as (Heq & _ & Hret).
  split.
  - clear Hret. eexists. split; [|split].
    + etransitivity; [exact Heq|]. vm_compute. reflexivity.
    + vm_compute. reflexivity.
    + vm_compute. reflexivity.
  - clear Heq. destruct Hret as (f & r & Hr & _).
    + intros a Ha. unfold all_arcs in Ha. cbn in Ha. clear -Ha.
      repeat (apply elem_of_cons in Ha as [->|Ha]; [by vm_compute|]).
      apply elem_of_nil in Ha. destruct Ha.
    + reflexivity.
    + exists f, r. exact Hr.
Defined.

(** ** The hypotheses of the search and the tokens of the heap *)

Lemma hyp_of_cost fuel (h : gmap addr Token) a hp :
  hyp_of fuel h a = Some hp →
  ∃ t, h !! a = Some t ∧ cumulativeCost hp = cost_ t ∧ transition hp = arc_ t.
Proof.
  destruct fuel as [|fuel]; [done|]. cbn.
  destruct (h !! a) as [t|]; [|done]. cbn.
  destruct (prev_ t) as [p|].
  - destruct (hyp_of fuel h p); [|done]. intros [= <-]. by exists t.
  - intros [= <-]. by exists t.
Qed.

(** Writes that keep arc, predecessor and cost of every live token keep the
    hypotheses they denote. *)
Lemma hyp_of_stable fuel (h h' : gmap addr Token) : ∀ a hp,
  (∀ b t, h !! b = Some t →
     ∃ t', h' !! b = Some t' ∧ arc_ t' = arc_ t ∧ prev_ t' = prev_ t
           ∧ cost_ t' = cost_ t) →
  hyp_of fuel h a = Some hp → hyp_of fuel h' a = Some hp.
Proof.
  induction fuel as [|fuel IH]; intros a hp Hkeep; [done|]. cbn.
  destruct (h !! a) as [t|] eqn:Ht; [|done].
  destruct (Hkeep a t Ht) as (t' & Ht' & Harc & Hprev & Hcost).
  rewrite Ht'. cbn. rewrite Harc, Hprev, Hcost.
  destruct (prev_ t) as [p|]; [|done].
  destruct (hyp_of fuel h p) as [hp'|] eqn:Hp; [|done].
  by rewrite (IH p hp' Hkeep Hp).
Qed.

(** The token a constructor builds on top of a predecessor denotes the
    hypothesis [create] builds on top of the predecessor's hypothesis. *)
Lemma create_follows_Token_new raw this arc ac p fuel (h h' : gmap addr Token) hp :
  hyp_of fuel h p = Some hp →
  (Token_new raw this arc ac (Some p) h = Some h' →
   hyp_of (S fuel) h' this = Some (create arc (Some hp) (Some ac))) ∧
  (Token_new_noac raw this arc (Some p) h = Some h' →
   hyp_of (S fuel) h' this = Some (create arc (Some hp) None)).
Proof.
  intros Hp. unfold Token_new, Token_new_noac.
  destruct (hyp_of_cost _ _ _ _ Hp) as (tp & Htp & Hcost & _).
  destruct (h !! this) eqn:Hfresh; [done|].
  assert (this ≠ p) as Hne by congruence.
  rewrite (Token_Init_chained _ _ _ _ _ raw tp Hne)
    by first [apply lookup_insert_eq | by rewrite lookup_insert_ne].
  rewrite (Token_Init_noac_chained _ _ _ _ raw tp Hne)
    by first [apply lookup_insert_eq | by rewrite lookup_insert_ne].
  rewrite !insert_over_raw by done.
  assert (∀ T, hyp_of fuel (<[this := T]> (<[p := incr_ref_count tp]> h)) p
               = Some hp) as Hp'.
  { intros T. apply (hyp_of_stable fuel h); [|done]. intros b t Hb.
    assert (b ≠ this) by congruence. rewrite lookup_insert_ne by done.
    destruct (decide (b = p)) as [->|].
    - rewrite lookup_insert_eq. eexists. split; [done|].
      assert (t = tp) as -> by congruence. done.
    - rewrite lookup_insert_ne by done. by exists t. }
  split; intros [= <-]; cbn [hyp_of]; rewrite lookup_insert_eq;
    cbn [mbind option_bind prev_ arc_ cost_]; rewrite Hp';
    cbn [mbind option_bind]; unfold create; by rewrite Hcost.
Qed.

Lemma create_follows_Token_new_root raw this arc ac (h h' : gmap addr Token) :
  (Token_new raw this arc ac None h = Some h' →
   hyp_of 1 h' this = Some (create arc None (Some ac))) ∧
  (Token_new_noac raw this arc None h = Some h' →
   hyp_of 1 h' this = Some (create arc None None)).
Proof.
  unfold Token_new, Token_new_noac. destruct (h !! this) eqn:Hfresh; [done|].
  rewrite (Token_Init_root _ _ _ _ raw), (Token_Init_noac_root _ _ _ raw)
    by apply lookup_insert_eq.
  split; intros [= <-]; cbn [hyp_of]; by rewrite lookup_insert_eq.
Qed.

(** ** The scenarios of the specification *)

(** Scenario A: one frame-consuming transition of weight 1 and label 7 into a
    final state, acoustic cost 2: the best path is that label, at cost 3. *)
Example scenario_A :
  let g := mkFst 0 [([mkArc 1 7 1 true], None); ([], Some 0%Q)] in
  let d := mkDecodable 1 (λ _ _, 2%Q) in
  ∃ r, Decode 8 d (mkDecoder g default_options [] 0) = Done r ∧
       cost_of <$> toks_ r = [3%Q] ∧
       ReachedFinal r = true ∧
       GetBestPath r true = Some [7%Z].
Proof. eexists. split; [vm_compute; reflexivity|]. by vm_compute. Qed.

(** Scenario B: two transitions into the same state, of total costs 2 and
    7/2: the entry of that state holds the hypothesis of cost 2. *)
Example scenario_B :
  let g := mkFst 0 [([mkArc 1 7 (7#2) true; mkArc 1 8 2 true;
                      mkArc 1 9 (7#2) true], None); ([], None)] in
  let d := mkDecodable 1 (λ _ _, 0%Q) in
  ∃ r, Decode 8 d (mkDecoder g default_options [] 0) = Done r ∧
       (toks_ r).*1 = [1%Z] ∧ cost_of <$> toks_ r = [2%Q] ∧
       GetBestPath r false = Some [8%Z].
Proof. eexists. split; [vm_compute; reflexivity|]. by vm_compute. Qed.

(** Scenario C: five candidates of costs 1, 6/5, 3/2, 9/5 and 2 with
    [max_active = 1]: only the hypothesis of cost 1 is expanded into the next
    frame. *)
Example scenario_C :
  let loop s := ([mkArc s (10 + s) 0 true], None) in
  let g := mkFst 0 [([mkArc 1 1 1 true; mkArc 2 2 (6#5) true;
                      mkArc 3 3 (3#2) true; mkArc 4 4 (9#5) true;
                      mkArc 5 5 2 true], None);
                    loop 1%Z; loop 2%Z; loop 3%Z; loop 4%Z; loop 5%Z] in
  let d := mkDecodable 2 (λ _ _, 0%Q) in
  ∃ r, Decode 8 d (mkDecoder g (mkOptions 16 1 0 (1#2) 2) [] 0) = Done r ∧
       (toks_ r).*1 = [1%Z] ∧
       GetBestPath r false = Some [1; 11]%Z.
Proof. eexists. split; [vm_compute; reflexivity|]. by vm_compute. Qed.

(** Scenario D: no frame at all: the generation is the start state alone,
    which is not final here.  The traceback selects the start hypothesis,
    which has no label, and the call fails. *)
Example scenario_D :
  let g := mkFst 0 [([mkArc 1 7 1 true], None); ([], Some 0%Q)] in
  let d := mkDecodable 0 (λ _ _, 2%Q) in
  ∃ r, Decode 8 d (mkDecoder g default_options [] 0) = Done r ∧
       (toks_ r).*1 = [0%Z] ∧ ReachedFinal r = false ∧
       GetBestPath r true = None ∧ NumFramesDecoded r = 0%Z.
Proof. eexists. split; [vm_compute; reflexivity|]. by vm_compute. Qed.


(** ** The reference-count discipline *)

Lemma referrers_fresh (h : gmap addr Token) i x a :
  h !! i = None →
  referrers (<[i := x]> h) a =
    referrers h a + (if decide (prev_ x = Some a) then 1 else 0).
Proof.
  intros Hi. unfold referrers. rewrite map_filter_insert. cbn.
  destruct (decide (prev_ x = Some a)).
  - rewrite map_size_insert_None; [lia|].
    apply map_lookup_filter_None. by left.
  - rewrite delete_id by done. lia.
Qed.

Lemma referrers_delete (h : gmap addr Token) i t a :
  h !! i = Some t →
  referrers (delete i h) a + (if decide (prev_ t = Some a) then 1 else 0)
  = referrers h a.
Proof.
  intros Hi.
  rewrite <- (insert_id h i t Hi) at 2. rewrite <- insert_delete_eq.
  rewrite referrers_fresh by apply lookup_delete_eq. done.
Qed.

(** Storing a token with the same predecessor changes no referrer count. *)
Lemma referrers_rewrite (h : gmap addr Token) i t t' a :
  h !! i = Some t → prev_ t' = prev_ t →
  referrers (<[i := t']> h) a = referrers h a.
Proof.
  intros Hi Hprev. rewrite <- insert_delete_eq.
  rewrite referrers_fresh by apply lookup_delete_eq.
  rewrite <- (referrers_delete h i t a Hi). by rewrite Hprev.
Qed.

Lemma referrers_zero (h : gmap addr Token) a :
  referrers h a = 0 ↔ ∀ b t, h !! b = Some t → prev_ t ≠ Some a.
Proof.
  unfold referrers. rewrite map_size_empty_iff. split.
  - intros Hempty b t Hb Hprev.
    assert (filter (λ kt : addr * Token, prev_ kt.2 = Some a) h !! b = Some t)
      as Hin by (by apply map_lookup_filter_Some).
    rewrite Hempty in Hin. by rewrite lookup_empty in Hin.
  - intros Hno. apply map_empty. intros b.
    apply map_lookup_filter_None. right. intros t Hb. apply (Hno b t Hb).
Qed.

Lemma counted_ext owners owners' depth (h : gmap addr Token) :
  (∀ a, is_Some (h !! a) → owners' a = owners a) →
  counted owners depth h → counted owners' depth h.
Proof.
  intros Hext [Hrefs Hheld Hprev]. split.
  - intros a t Ha. rewrite Hext by (by eexists). by apply Hrefs.
  - intros a t Ha. rewrite Hext by (by eexists). by eapply Hheld.
  - done.
Qed.

(** What a constructor leaves in the heap. *)
Lemma Token_new_shape raw this arc ac prev (h h' : gmap addr Token) :
  prev ≠ Some this →
  Token_new raw this arc ac prev h = Some h' ∨
  Token_new_noac raw this arc prev h = Some h' →
  h !! this = None ∧
  ∃ c, match prev with
       | None => h' = <[this := mkToken arc None 1 c]> h
       | Some p =>
           ∃ tp, h !! p = Some tp ∧
             h' = <[this := mkToken arc (Some p) 1 c]>
                    (<[p := incr_ref_count tp]> h)
       end.
Proof.
  intros Hself. unfold Token_new, Token_new_noac.
  destruct (h !! this) eqn:Hfresh; [by intros [?|?]|].
  intros Hnew. split; [done|].
  assert (<[this := raw]> h !! this = Some raw) as Hraw
    by apply lookup_insert_eq.
  destruct prev as [p|].
  - assert (this ≠ p) as Hne by congruence.
    destruct (h !! p) as [tp|] eqn:Hp.
    + rewrite (Token_Init_chained _ _ _ _ _ raw tp Hne),
        (Token_Init_noac_chained _ _ _ _ raw tp Hne) in Hnew
        by first [done | by rewrite lookup_insert_ne].
      rewrite !insert_over_raw in Hnew by done.
      destruct Hnew as [[= <-]|[= <-]]; eexists; by exists tp.
    + rewrite Token_Init_dangling, Token_Init_noac_dangling in Hnew
        by (right; by rewrite lookup_insert_ne).
      by destruct Hnew.
  - rewrite (Token_Init_root _ _ _ _ _ Hraw),
      (Token_Init_noac_root _ _ _ _ Hraw), !insert_insert_eq in Hnew.
    destruct Hnew as [[= <-]|[= <-]]; by eexists.
Qed.

Lemma counted_no_referrer owners depth (h : gmap addr Token) a :
  counted owners depth h → h !! a = None → referrers h a = 0.
Proof.
  intros [_ _ Hprev] Ha. apply referrers_zero. intros b t Hb Hp.
  destruct (Hprev b t a Hb Hp) as [[? Hlive] _]. congruence.
Qed.

(** A heap extended as a constructor extends it keeps the discipline; the
    creator holds the one reference to the new token. *)
Lemma counted_new_token this arc c prev owners depth (h h' : gmap addr Token) :
  counted owners depth h → h !! this = None →
  match prev with
  | None => h' = <[this := mkToken arc None 1 c]> h
  | Some p =>
      ∃ tp, h !! p = Some tp ∧
        h' = <[this := mkToken arc (Some p) 1 c]>
               (<[p := incr_ref_count tp]> h)
  end →
  ∃ depth', counted (first_owner this owners) depth' h'.
Proof.
  intros Hc Hfresh Hshape.
  pose proof (counted_no_referrer _ _ _ _ Hc Hfresh) as Hnone.
  destruct Hc as [Hrefs Hheld Hprev].
  destruct prev as [p|].
  - destruct Hshape as (tp & Hp & ->).
    assert (this ≠ p) as Hne by congruence.
    set (T := mkToken arc (Some p) 1 c).
    assert (∀ a, referrers (<[this := T]> (<[p := incr_ref_count tp]> h)) a
                 = referrers h a + (if decide (a = p) then 1 else 0)) as Href.
    { intros a. rewrite referrers_fresh by (by rewrite lookup_insert_ne).
      rewrite (referrers_rewrite h p tp) by done. cbn.
      destruct (decide (Some p = Some a)), (decide (a = p)); congruence. }
    exists (λ a, if decide (a = this) then S (depth p) else depth a).
    split.
    + intros a t Ha. rewrite Href. unfold first_owner.
      destruct (decide (a = this)) as [->|Hat].
      * rewrite lookup_insert_eq in Ha. injection Ha as <-.
        rewrite decide_False by done. cbn. lia.
      * rewrite lookup_insert_ne in Ha by done.
        destruct (decide (a = p)) as [->|Hap].
        -- rewrite lookup_insert_eq in Ha. injection Ha as <-. cbn.
           rewrite (Hrefs p tp Hp). lia.
        -- rewrite lookup_insert_ne in Ha by done.
           rewrite (Hrefs a t Ha). lia.
    + intros a t Ha. rewrite Href. unfold first_owner.
      destruct (decide (a = this)) as [->|Hat]; [lia|].
      rewrite lookup_insert_ne in Ha by done.
      destruct (decide (a = p)) as [->|Hap]; [lia|].
      rewrite lookup_insert_ne in Ha by done.
      pose proof (Hheld a t Ha). lia.
    + intros a t q Ha Hq.
      assert (∀ b tb, h !! b = Some tb →
                is_Some (<[this := T]> (<[p := incr_ref_count tp]> h) !! b)
                ∧ b ≠ this) as Hlive.
      { intros b tb Hb. assert (b ≠ this) by congruence. split; [|done].
        rewrite lookup_insert_ne by done.
        destruct (decide (b = p)) as [->|].
        - rewrite lookup_insert_eq. by eexists.
        - rewrite lookup_insert_ne by done. by eexists. }
      destruct (decide (a = this)) as [->|Hat].
      * rewrite lookup_insert_eq in Ha. injection Ha as <-.
        injection Hq as <-. destruct (Hlive p tp Hp) as [Hl _].
        split; [done|]. cbv beta. destruct (decide (p = this)); [congruence|].
        lia.
      * rewrite lookup_insert_ne in Ha by done.
        assert (∃ t0, h !! a = Some t0 ∧ prev_ t0 = Some q) as (t0 & Ht0 & Hq0).
        { destruct (decide (a = p)) as [->|].
          - rewrite lookup_insert_eq in Ha. injection Ha as <-. by exists tp.
          - rewrite lookup_insert_ne in Ha by done. by exists t. }
        destruct (Hprev a t0 q Ht0 Hq0) as [[tq Htq] Hd].
        destruct (Hlive q tq Htq) as [Hl Hqt].
        split; [done|]. cbv beta. by rewrite !decide_False by done.
  - subst h'. set (T := mkToken arc None 1 c).
    assert (∀ a, referrers (<[this := T]> h) a = referrers h a) as Href.
    { intros a. rewrite referrers_fresh by done. cbn.
      rewrite decide_False by done. lia. }
    exists depth. split.
    + intros a t Ha. rewrite Href. unfold first_owner.
      destruct (decide (a = this)) as [->|Hat].
      * rewrite lookup_insert_eq in Ha. injection Ha as <-. cbn. lia.
      * rewrite lookup_insert_ne in Ha by done. by apply Hrefs.
    + intros a t Ha. rewrite Href. unfold first_owner.
      destruct (decide (a = this)) as [->|Hat]; [lia|].
      rewrite lookup_insert_ne in Ha by done. by eapply Hheld.
    + intros a t q Ha Hq.
      destruct (decide (a = this)) as [->|Hat].
      * rewrite lookup_insert_eq in Ha. by injection Ha as <-.
      * rewrite lookup_insert_ne in Ha by done.
        destruct (Hprev a t q Ha Hq) as [[tq Htq] Hd]. split; [|done].
        rewrite lookup_insert_ne by congruence. by eexists.
Qed.

(** Release under the discipline: the holder of a reference to a live token
    may release it; the loop succeeds and the discipline holds again, with
    one reference fewer held on [tok]. *)
Lemma TokenDelete_loop_counted fuel : ∀ tok st owners depth t,
  size (heap st) < fuel →
  counted owners depth (heap st) → heap st !! tok = Some t →
  1 ≤ owners tok →
  ∃ st', TokenDelete_loop fuel tok st = Done st' ∧
         counted (release_owner tok owners) depth (heap st').
Proof.
  induction fuel as [|fuel IH]; intros tok st owners depth t Hsz Hc Ht Hown;
    [lia|].
  rewrite (TokenDelete_loop_S _ _ _ _ Ht).
  pose proof Hc as [Hrefs Hheld Hprev].
  pose proof (Hrefs tok t Ht) as Hrc.
  destruct (ref_count_ t =? 1)%Z eqn:Hone.
  - (* the last reference: the record is recycled *)
    assert (referrers (heap st) tok = 0) as Hnone by lia.
    assert (owners tok = 1) as Hown1 by lia.
    pose proof (proj1 (referrers_zero _ _) Hnone) as Hnoref.
    assert (∀ a ta, delete tok (heap st) !! a = Some ta →
              a ≠ tok ∧ heap st !! a = Some ta) as Hdel.
    { intros a ta Ha. destruct (decide (a = tok)) as [->|Hne].
      - by rewrite lookup_delete_eq in Ha.
      - by rewrite lookup_delete_ne in Ha. }
    assert (∀ a ta q, delete tok (heap st) !! a = Some ta → prev_ ta = Some q →
              is_Some (delete tok (heap st) !! q) ∧ depth q < depth a)
      as Hprev'.
    { intros a ta q Ha Hq. destruct (Hdel a ta Ha) as [Hne Ha'].
      destruct (Hprev a ta q Ha' Hq) as [Hlive Hd]. split; [|done].
      rewrite lookup_delete_ne; [done|]. intros ->. by eapply Hnoref. }
    destruct (prev_ t) as [p|] eqn:Hp.
    + destruct (Hprev tok t p Ht Hp) as [[tp Htp] Hdepth].
      assert (p ≠ tok) as Hne by (intros ->; lia).
      destruct (IH p (pool_Delete tok st)
                  (acquire_owner p (release_owner tok owners)) depth tp)
        as (st' & Hloop & Hc').
      * pose proof (size_recycled _ _ _ Ht). lia.
      * split.
        -- intros a ta Ha. destruct (Hdel a ta Ha) as [Hat Ha'].
           pose proof (referrers_delete (heap st) tok t a Ht) as Hr.
           rewrite Hp in Hr. rewrite (Hrefs a ta Ha').
           unfold acquire_owner, release_owner. cbn [heap pool_Delete].
           rewrite (decide_False (P := a = tok)) by done.
           destruct (decide (Some p = Some a)), (decide (a = p));
             try congruence; lia.
        -- intros a ta Ha. destruct (Hdel a ta Ha) as [Hat Ha'].
           pose proof (referrers_delete (heap st) tok t a Ht) as Hr.
           rewrite Hp in Hr. pose proof (Hheld a ta Ha').
           unfold acquire_owner, release_owner. cbn [heap pool_Delete].
           rewrite (decide_False (P := a = tok)) by done.
           destruct (decide (Some p = Some a)), (decide (a = p));
             try congruence; lia.
        -- exact Hprev'.
      * cbn. by rewrite lookup_delete_ne.
      * unfold acquire_owner. rewrite decide_True by done. lia.
      * exists st'. split; [done|]. eapply counted_ext; [|exact Hc'].
        intros a _. unfold release_owner, acquire_owner.
        destruct (decide (a = p)) as [->|]; [|done].
        by rewrite decide_False by done.
    + eexists. split; [done|]. split.
      * intros a ta Ha. destruct (Hdel a ta Ha) as [Hat Ha'].
        pose proof (referrers_delete (heap st) tok t a Ht) as Hr.
        rewrite Hp, decide_False in Hr by done. rewrite (Hrefs a ta Ha').
        unfold release_owner. cbn [heap pool_Delete].
        rewrite decide_False by done. lia.
      * intros a ta Ha. destruct (Hdel a ta Ha) as [Hat Ha'].
        pose proof (referrers_delete (heap st) tok t a Ht) as Hr.
        rewrite Hp, decide_False in Hr by done. pose proof (Hheld a ta Ha').
        unfold release_owner. cbn [heap pool_Delete].
        rewrite decide_False by done. lia.
      * exact Hprev'.
  - (* other references remain: only the count changes *)
    pose proof (Hheld tok t Ht).
    assert ((1 <? ref_count_ t)%Z = true) as -> by lia.
    eexists. split; [done|]. cbn [heap].
    set (t' := set_ref_count (ref_count_ t - 1) t).
    assert (∀ a, referrers (<[tok := t']> (heap st)) a = referrers (heap st) a)
      as Href by (intros a; by apply (referrers_rewrite _ _ t)).
    assert (∀ a ta, <[tok := t']> (heap st) !! a = Some ta →
              ∃ ta0, heap st !! a = Some ta0 ∧ prev_ ta = prev_ ta0
                     ∧ (a ≠ tok → ta = ta0)) as Hold.
    { intros a ta Ha. destruct (decide (a = tok)) as [->|Hne].
      - rewrite lookup_insert_eq in Ha. injection Ha as <-. by exists t.
      - rewrite lookup_insert_ne in Ha by done. by exists ta. }
    split.
    + intros a ta Ha. rewrite Href. unfold release_owner.
      destruct (decide (a = tok)) as [->|Hne].
      * rewrite lookup_insert_eq in Ha. injection Ha as <-. cbn. lia.
      * rewrite lookup_insert_ne in Ha by done. by apply Hrefs.
    + intros a ta Ha. rewrite Href. unfold release_owner.
      destruct (decide (a = tok)) as [->|Hne]; [lia|].
      rewrite lookup_insert_ne in Ha by done. by eapply Hheld.
    + intros a ta q Ha Hq. destruct (Hold a ta Ha) as (ta0 & Ha0 & Hpr & _).
      rewrite Hpr in Hq. destruct (Hprev a ta0 q Ha0 Hq) as [[tq Htq] Hd].
      split; [|done]. destruct (decide (q = tok)) as [->|].
      * rewrite lookup_insert_eq. by eexists.
      * rewrite lookup_insert_ne by done. by eexists.
Qed.

(** A heap on which nobody holds a reference any more is empty: nothing
    leaks. *)
Lemma deepest_token depth (h : gmap addr Token) :
  h ≠ ∅ →
  ∃ a, is_Some (h !! a) ∧ ∀ b, is_Some (h !! b) → depth b ≤ depth a.
Proof.
  induction h as [|i x h Hi _ IH] using map_first_key_ind; [done|].
  intros _. destruct (decide (h = ∅)) as [->|Hne].
  - exists i. split; [rewrite lookup_insert_eq; by eexists|].
    intros b [tb Hb]. destruct (decide (b = i)) as [->|]; [done|].
    rewrite lookup_insert_ne, lookup_empty in Hb by done. done.
  - destruct (IH Hne) as (a & [ta Ha] & Hmax).
    assert (a ≠ i) by congruence.
    destruct (decide (depth a ≤ depth i)).
    + exists i. split; [rewrite lookup_insert_eq; by eexists|].
      intros b [tb Hb]. destruct (decide (b = i)) as [->|]; [done|].
      rewrite lookup_insert_ne in Hb by done.
      pose proof (Hmax b (ex_intro _ tb Hb)). lia.
    + exists a. split; [rewrite lookup_insert_ne by done; by eexists|].
      intros b [tb Hb]. destruct (decide (b = i)) as [->|]; [lia|].
      rewrite lookup_insert_ne in Hb by done. apply Hmax. by eexists.
Qed.

Lemma counted_unowned_empty owners depth (h : gmap addr Token) :
  counted owners depth h →
  (∀ a, is_Some (h !! a) → owners a = 0) → h = ∅.
Proof.
  intros [Hrefs Hheld Hprev] Hnone.
  destruct (decide (h = ∅)) as [|Hne]; [done|]. exfalso.
  destruct (deepest_token depth h Hne) as (a & [ta Ha] & Hmax).
  assert (referrers h a = 0) as Hz.
  { apply referrers_zero. intros b tb Hb Hp.
    destruct (Hprev b tb a Hb Hp) as [_ Hd].
    pose proof (Hmax b (ex_intro _ tb Hb)). lia. }
  pose proof (Hheld a ta Ha). rewrite (Hnone a) in * by (by eexists). lia.
Qed.

(** ** What a release changes *)

Lemma TokenDelete_loop_survivors fuel : ∀ tok st st' a t',
  TokenDelete_loop fuel tok st = Done st' → heap st' !! a = Some t' →
  ∃ t, heap st !! a = Some t ∧ arc_ t' = arc_ t ∧ prev_ t' = prev_ t ∧
       cost_ t' = cost_ t ∧ (ref_count_ t - 1 ≤ ref_count_ t' ≤ ref_count_ t)%Z.
Proof.
  induction fuel as [|fuel IH]; intros tok st st' a t'; [done|].
  destruct (heap st !! tok) as [t0|] eqn:Ht0; [|by cbn; rewrite Ht0].
  rewrite (TokenDelete_loop_S _ _ _ _ Ht0).
  assert (∀ ta, heap (pool_Delete tok st) !! a = Some ta →
            heap st !! a = Some ta) as Hdel.
  { cbn. intros ta Ha. destruct (decide (a = tok)) as [->|Hne].
    - by rewrite lookup_delete_eq in Ha.
    - by rewrite lookup_delete_ne in Ha. }
  destruct (ref_count_ t0 =? 1)%Z.
  - destruct (prev_ t0).
    + intros Hloop Ha. destruct (IH _ _ _ _ _ Hloop Ha) as (t & Ht & Hsame).
      exists t. split; [by apply Hdel|done].
    + intros [= <-] Ha. exists t'. split; [by apply Hdel|]. repeat split; lia.
  - destruct (1 <? ref_count_ t0)%Z; [|done]. intros [= <-]. cbn.
    destruct (decide (a = tok)) as [->|Hne].
    + rewrite lookup_insert_eq. intros [= <-]. exists t0. cbn.
      repeat split; try done; lia.
    + rewrite lookup_insert_ne by done. intros Ha. exists t'.
      repeat split; try done; lia.
Qed.

Lemma TokenDelete_loop_recycled fuel : ∀ tok st st',
  TokenDelete_loop fuel tok st = Done st' →
  ∃ recycled,
    pool st' = recycled ++ pool st ∧ NoDup recycled ∧
    (∀ a, a ∈ recycled ↔ is_Some (heap st !! a) ∧ heap st' !! a = None) ∧
    size (heap st') + length recycled = size (heap st).
Proof.
  induction fuel as [|fuel IH]; intros tok st st'; [done|].
  destruct (heap st !! tok) as [t0|] eqn:Ht0; [|by cbn; rewrite Ht0].
  rewrite (TokenDelete_loop_S _ _ _ _ Ht0).
  pose proof (size_recycled _ _ _ Ht0) as Hsize.
  destruct (ref_count_ t0 =? 1)%Z.
  - destruct (prev_ t0) as [p|].
    + intros Hloop. destruct (IH _ _ _ Hloop) as (rec & Hpool & Hnd & Hin & Hsz).
      assert (heap st' !! tok = None) as Hgone.
      { destruct (heap st' !! tok) as [t'|] eqn:Ht'; [|done].
        destruct (TokenDelete_loop_survivors _ _ _ _ _ _ Hloop Ht')
          as (t & Ht & _).
        cbn in Ht. by rewrite lookup_delete_eq in Ht. }
      exists (rec ++ [tok]). split; [|split; [|split]].
      * rewrite Hpool. cbn. by rewrite <- app_assoc.
      * apply NoDup_app. split; [done|]. split; [|apply NoDup_singleton].
        intros a Ha ->%list_elem_of_singleton.
        apply Hin in Ha as [[t Ht] _]. cbn in Ht.
        by rewrite lookup_delete_eq in Ht.
      * intros a. rewrite elem_of_app, list_elem_of_singleton, Hin. cbn.
        destruct (decide (a = tok)) as [->|Hne].
        -- rewrite lookup_delete_eq. split; [intros _|by right].
           split; [by eexists|done].
        -- rewrite lookup_delete_ne by done. split; [|by left].
           by intros [?|?].
      * rewrite length_app. cbn. lia.
    + intros [= <-]. exists [tok]. split; [done|].
      split; [apply NoDup_singleton|]. split; [|cbn in *; lia].
      intros a. rewrite list_elem_of_singleton. cbn.
      destruct (decide (a = tok)) as [->|Hne].
      * rewrite lookup_delete_eq. split; [intros _|done].
        split; [by eexists|done].
      * rewrite lookup_delete_ne by done. split; [done|].
        intros [[t Ht] Hnone]. congruence.
  - destruct (1 <? ref_count_ t0)%Z; [|done]. intros [= <-]. exists [].
    split; [done|]. split; [constructor|]. split.
    + intros a. split; [by intros ?%elem_of_nil|]. cbn. intros [[t Ht] Hnone].
      destruct (decide (a = tok)) as [->|Hne].
      * by rewrite lookup_insert_eq in Hnone.
      * rewrite lookup_insert_ne in Hnone by done. congruence.
    + cbn. rewrite map_size_insert_Some by (by eexists). lia.
Qed.

Lemma counted_empty owners depth : counted owners depth ∅.
Proof. split; intros a t; by rewrite lookup_empty. Qed.

Lemma hyp_of_survivor (h h' : gmap addr Token) :
  (∀ a t', h' !! a = Some t' →
     ∃ t, h !! a = Some t ∧ arc_ t' = arc_ t ∧ prev_ t' = prev_ t
          ∧ cost_ t' = cost_ t) →
  (∀ a t' p, h' !! a = Some t' → prev_ t' = Some p → is_Some (h' !! p)) →
  ∀ fuel a, is_Some (h' !! a) → hyp_of fuel h' a = hyp_of fuel h a.
Proof.
  intros Hkeep Hclosed. induction fuel as [|fuel IH]; intros a [t' Ha]; [done|].
  cbn. rewrite Ha. destruct (Hkeep a t' Ha) as (t & -> & Harc & Hprev & Hcost).
  cbn. rewrite Harc, Hcost. destruct (prev_ t') as [p|] eqn:Hp; rewrite <- Hprev.
  - rewrite IH; [done|]. by eapply Hclosed.
  - done.
Qed.

(** X1.  The empty heap satisfies the reference-count discipline, and a
    token constructor keeps it: after [new Token(arc, ac_cost, prev)] or
    [new Token(arc, prev)] on free storage, every live token's [ref_count_]
    is again the number of outside holders plus the number of live tokens
    pointing to it, the creator being the one holder of the new token. *)
Theorem creation_keeps_reference_counts :
  (∀ owners depth, counted owners depth ∅) ∧
  ∀ raw this arc ac prev owners depth (h h' : gmap addr Token),
    counted owners depth h → prev ≠ Some this →
    Token_new raw this arc ac prev h = Some h' ∨
    Token_new_noac raw this arc prev h = Some h' →
    ∃ depth', counted (first_owner this owners) depth' h'.
Proof.
  split; [apply counted_empty|].
  intros raw this arc ac prev owners depth h h' Hc Hself Hnew.
  destruct (Token_new_shape _ _ _ _ _ _ _ Hself Hnew) as [Hfresh [c Hshape]].
  by eapply counted_new_token.
Qed.

Lemma creation_keeps_reference_counts_witness :
  let root := mkToken (mkArc 0 0 0 false) None 1 0 in
  ∃ depth', counted (first_owner 0 (λ _, 0)) depth' ({[ 0 := root ]} : gmap addr Token).
Proof.
  intros root.
  refine (proj2 creation_keeps_reference_counts root 0 (mkArc 0 0 0 false)
            0%Q None (λ _, 0) (λ _, 0) ∅ _ (counted_empty _ _) _ _).
  - done.
  - right. reflexivity.
Defined.

(** X2.  Under the reference-count discipline the holder of a reference to a
    live token can always release it: [TokenDelete] returns, never stepping
    on a recycled record and never failing its [CHECK], and the discipline
    holds afterwards with one holder fewer on that token. *)
Theorem release_keeps_reference_counts tok st owners depth :
  counted owners depth (heap st) → is_Some (heap st !! tok) →
  1 ≤ owners tok →
  ∃ st', TokenDelete tok st = Done st' ∧
         counted (release_owner tok owners) depth (heap st').
Proof.
  intros Hc [t Ht] Hown. unfold TokenDelete.
  eapply TokenDelete_loop_counted; [lia|done..].
Qed.

(** X3.  Nothing leaks: when the released reference was the only one held
    from outside the heap, [TokenDelete] recycles every live token; the heap
    ends empty and every record that was live is in the pool. *)
Theorem last_release_empties_heap tok st owners depth :
  counted owners depth (heap st) → is_Some (heap st !! tok) →
  owners tok = 1 →
  (∀ a, is_Some (heap st !! a) → a ≠ tok → owners a = 0) →
  ∃ st', TokenDelete tok st = Done st' ∧ heap st' = ∅ ∧
         ∀ a, is_Some (heap st !! a) → a ∈ pool st'.
Proof.
  intros Hc [t Ht] Hown Hothers.
  destruct (TokenDelete_loop_counted (S (size (heap st))) tok st owners depth t)
    as (st' & Hloop & Hc'); [lia|done..|lia|].
  assert (heap st' = ∅) as Hempty.
  { apply (counted_unowned_empty _ _ _ Hc'). intros a [t' Ha].
    destruct (TokenDelete_loop_survivors _ _ _ _ _ _ Hloop Ha) as (t0 & Ht0 & _).
    unfold release_owner. destruct (decide (a = tok)) as [->|Hne]; [lia|].
    apply Hothers; [by eexists|done]. }
  exists st'. split; [done|]. split; [done|].
  intros a [ta Ha].
  eapply (TokenDelete_loop_destroyed _ _ _ _ a ta Hloop Ha).
  by rewrite Hempty, lookup_empty.
Qed.

(** X4.  Creating a token and releasing it again is a round trip: the heap
    is what it was before, the predecessor's count included, and the storage
    of the token is at the head of the pool.  The predecessor must have been
    referenced before ([ref_count_ >= 1]). *)
Theorem create_release_round_trip raw this arc ac prev (h h' : gmap addr Token) pl :
  prev ≠ Some this →
  (∀ p tp, prev = Some p → h !! p = Some tp → (1 ≤ ref_count_ tp)%Z) →
  Token_new raw this arc ac prev h = Some h' ∨
  Token_new_noac raw this arc prev h = Some h' →
  TokenDelete this (mkStore h' pl) = Done (mkStore h (this :: pl)).
Proof.
  intros Hself Hheld Hnew.
  destruct (Token_new_shape _ _ _ _ _ _ _ Hself Hnew) as [Hfresh [c Hshape]].
  destruct prev as [p|].
  - destruct Hshape as (tp & Hp & ->). assert (this ≠ p) as Hne by congruence.
    erewrite TokenDelete_unfold by apply lookup_insert_eq.
    cbn -[TokenDelete].
    erewrite TokenDelete_unfold; cycle 1.
    { cbn. rewrite delete_insert_eq, lookup_delete_ne by done.
      apply lookup_insert_eq. }
    pose proof (Hheld p tp eq_refl Hp). cbn.
    replace (ref_count_ tp + 1 =? 1)%Z with false by lia.
    replace (1 <? ref_count_ tp + 1)%Z with true by lia.
    do 2 f_equal. rewrite delete_insert_eq.
    rewrite delete_insert_ne, (delete_id h this), insert_insert_eq by done.
    apply insert_id. rewrite Hp. f_equal. destruct tp. unfold set_ref_count.
    cbn. f_equal. lia.
  - subst h'. erewrite TokenDelete_unfold by apply lookup_insert_eq.
    cbn -[TokenDelete]. f_equal. unfold pool_Delete. cbn. f_equal.
    rewrite delete_insert_eq. by apply delete_id.
Qed.

Lemma create_release_round_trip_witness :
  let root := mkToken (mkArc 0 0 0 false) None 1 0 in
  let h : gmap addr Token := {[ 0 := root ]} in
  let h' : gmap addr Token :=
    <[1 := mkToken (mkArc 1 7 1 true) (Some 0) 1 (0 + 1 + 2)]>
      (<[0 := incr_ref_count root]> h) in
  TokenDelete 1 (mkStore h' []) = Done (mkStore h [1]).
Proof.
  intros root h h'.
  apply (create_release_round_trip root 1 (mkArc 1 7 1 true) 2 (Some 0) h h').
  - done.
  - intros p tp [= <-] Htp. vm_compute in Htp. injection Htp as <-. done.
  - left. vm_compute. reflexivity.
Defined.

(** A two-token chain under the discipline: the root at 0 is held by one
    outside holder and by the tip at 1, the tip by one outside holder. *)
Lemma chain_counted :
  let root := mkToken (mkArc 0 0 0 false) None 1 0 in
  let tip := mkToken (mkArc 1 7 1 true) (Some 0) 1 3 in
  ∃ depth,
    counted (first_owner 1 (first_owner 0 (λ _, 0))) depth
      (<[1 := tip]> (<[0 := incr_ref_count root]> {[ 0 := root ]})
         : gmap addr Token).
Proof.
  intros root tip.
  destruct (counted_new_token 0 (mkArc 0 0 0 false) 0%Q None
              (λ _, 0) (λ _, 0) ∅ {[ 0 := root ]})
    as [depth1 H1]; [apply counted_empty|done|reflexivity|].
  eapply (counted_new_token 1 (mkArc 1 7 1 true) 3%Q (Some 0)); [exact H1|done|].
  exists root. by split.
Qed.

Lemma release_keeps_reference_counts_witness :
  let root := mkToken (mkArc 0 0 0 false) None 1 0 in
  let tip := mkToken (mkArc 1 7 1 true) (Some 0) 1 3 in
  let st := mkStore (<[1 := tip]> (<[0 := incr_ref_count root]> {[ 0 := root ]})) [] in
  ∃ depth st',
    TokenDelete 1 st = Done st' ∧
    counted (release_owner 1 (first_owner 1 (first_owner 0 (λ _, 0)))) depth
      (heap st').
Proof.
  intros root tip st. destruct chain_counted as [depth Hc]. exists depth.
  apply (release_keeps_reference_counts 1 st _ depth Hc).
  - by eexists.
  - unfold first_owner. rewrite decide_True by done. lia.
Defined.

Lemma last_release_empties_heap_witness :
  let root := mkToken (mkArc 0 0 0 false) None 1 0 in
  let tip := mkToken (mkArc 1 7 1 true) (Some 0) 1 3 in
  let st := mkStore (<[1 := tip]> {[ 0 := root ]}) [] in
  ∃ st', TokenDelete 1 st = Done st' ∧ heap st' = ∅ ∧
         ∀ a, is_Some (heap st !! a) → a ∈ pool st'.
Proof.
  intros root tip st. destruct chain_counted as [depth Hc].
  set (owners := first_owner 1 (first_owner 0 (λ _, 0))) in Hc.
  destruct (TokenDelete_loop_counted 3 0
              (mkStore (<[1 := tip]> (<[0 := incr_ref_count root]>
                                        {[ 0 := root ]})) [])
              owners depth (incr_ref_count root))
    as (st1 & Hloop & Hc1);
    [vm_compute; lia|exact Hc|done
    |unfold owners, first_owner; repeat case_decide; try done; lia|].
  assert (st1 = st) as -> by (vm_compute in Hloop; by injection Hloop as <-).
  apply (last_release_empties_heap 1 st (release_owner 0 owners) depth Hc1).
  - by eexists.
  - reflexivity.
  - intros a _ Hne. unfold release_owner, owners, first_owner.
    repeat case_decide; try done; lia.
Defined.

(** X5.  A release changes nothing it does not recycle, except one count: a
    token that is live afterwards was live before with the same arc,
    predecessor and cost, and with the same reference count or one less; no
    token appears; and a token that was live is afterwards live or in the
    pool. *)
Theorem release_preserves_survivors tok st st' :
  TokenDelete tok st = Done st' →
  (∀ a t', heap st' !! a = Some t' →
     ∃ t, heap st !! a = Some t ∧ arc_ t' = arc_ t ∧ prev_ t' = prev_ t ∧
          cost_ t' = cost_ t ∧
          (ref_count_ t - 1 ≤ ref_count_ t' ≤ ref_count_ t)%Z) ∧
  (∀ a, is_Some (heap st !! a) → is_Some (heap st' !! a) ∨ a ∈ pool st').
Proof.
  intros Hdel. split.
  - intros a t'. by apply (TokenDelete_loop_survivors _ _ _ _ _ _ Hdel).
  - intros a [t Ha]. destruct (heap st' !! a) as [t'|] eqn:Ha'.
    + left. by eexists.
    + right. by eapply (TokenDelete_loop_destroyed _ _ _ _ a t Hdel).
Qed.

Lemma release_preserves_survivors_witness :
  let root := mkToken (mkArc 0 0 0 false) None 1 0 in
  let tip := mkToken (mkArc 1 7 1 true) (Some 0) 1 3 in
  let st := mkStore (<[1 := tip]> (<[0 := incr_ref_count root]> {[ 0 := root ]})) [] in
  ∃ t, heap st !! 0 = Some t ∧ arc_ root = arc_ t ∧ prev_ root = prev_ t ∧
       cost_ root = cost_ t ∧ (ref_count_ t - 1 ≤ ref_count_ root ≤ ref_count_ t)%Z.
Proof.
  intros root tip st.
  refine (proj1 (release_preserves_survivors 1 st
                   (mkStore {[ 0 := root ]} [1]) _) 0 root _).
  - vm_compute. reflexivity.
  - reflexivity.
Defined.

(** X6.  Under the reference-count discipline a release never damages a
    history: every token that is live afterwards denotes the same hypothesis
    chain (transitions, predecessors and costs back to the root) as
    before. *)
Theorem release_keeps_histories tok st st' owners depth :
  counted owners depth (heap st) → is_Some (heap st !! tok) →
  1 ≤ owners tok →
  TokenDelete tok st = Done st' →
  ∀ fuel a, is_Some (heap st' !! a) →
    hyp_of fuel (heap st') a = hyp_of fuel (heap st) a.
Proof.
  intros Hc [t Ht] Hown Hdel.
  destruct (TokenDelete_loop_counted (S (size (heap st))) tok st owners depth t)
    as (st1 & Hloop & [_ _ Hprev]); [lia|done..|].
  unfold TokenDelete in Hdel. rewrite Hloop in Hdel. injection Hdel as ->.
  apply hyp_of_survivor.
  - intros a t' Ha.
    destruct (TokenDelete_loop_survivors _ _ _ _ _ _ Hloop Ha)
      as (t0 & Ht0 & Harc & Hp & Hcost & _).
    by exists t0.
  - intros a t' p Ha Hp. by destruct (Hprev a t' p Ha Hp).
Qed.

Lemma release_keeps_histories_witness :
  let root := mkToken (mkArc 0 0 0 false) None 1 0 in
  let tip := mkToken (mkArc 1 7 1 true) (Some 0) 1 3 in
  let st := mkStore (<[1 := tip]> (<[0 := incr_ref_count root]> {[ 0 := root ]})) [] in
  let st' := mkStore (<[1 := tip]> {[ 0 := root ]}) [] in
  hyp_of 2 (heap st') 1
  = Some (mkHyp (mkArc 1 7 1 true)
            (Some (mkHyp (mkArc 0 0 0 false) None 0)) 3).
Proof.
  intros root tip st st'. destruct chain_counted as [depth Hc].
  rewrite (release_keeps_histories 0 st st' _ depth Hc).
  - reflexivity.
  - by eexists.
  - unfold first_owner. repeat case_decide; try done; lia.
  - vm_compute. reflexivity.
  - by eexists.
Defined.

(** X7.  No record is recycled twice and none is lost: if the pool's free
    list has no duplicate and holds no live address, the same is true after
    a release, and the number of live tokens plus the length of the free
    list is unchanged. *)
Theorem release_pool_hygiene tok st st' :
  NoDup (pool st) → (∀ a, a ∈ pool st → heap st !! a = None) →
  TokenDelete tok st = Done st' →
  NoDup (pool st') ∧ (∀ a, a ∈ pool st' → heap st' !! a = None) ∧
  size (heap st') + length (pool st') = size (heap st) + length (pool st).
Proof.
  intros Hnd Hfree Hdel.
  destruct (TokenDelete_loop_recycled _ _ _ _ Hdel)
    as (rec & Hpool & Hnd' & Hin & Hsz).
  rewrite Hpool. split; [|split].
  - apply NoDup_app. split; [done|]. split; [|done].
    intros a Ha Hp. apply Hin in Ha as [[t Ht] _].
    rewrite (Hfree a Hp) in Ht. done.
  - intros a [Ha|Ha]%elem_of_app.
    + by apply Hin in Ha as [_ ?].
    + destruct (heap st' !! a) as [t'|] eqn:Ht'; [|done].
      destruct (TokenDelete_loop_survivors _ _ _ _ _ _ Hdel Ht') as (t & Ht & _).
      rewrite (Hfree a Ha) in Ht. done.
  - rewrite length_app. lia.
Qed.

Lemma release_pool_hygiene_witness :
  let root := mkToken (mkArc 0 0 0 false) None 1 0 in
  let tip := mkToken (mkArc 1 7 1 true) (Some 0) 1 3 in
  let st := mkStore (<[1 := tip]> {[ 0 := root ]}) [5] in
  NoDup [0; 1; 5].
Proof.
  intros root tip st.
  refine (proj1 (release_pool_hygiene 1 st (mkStore ∅ [0; 1; 5]) _ _ _)).
  - apply NoDup_singleton.
  - intros a ->%list_elem_of_singleton. reflexivity.
  - vm_compute. reflexivity.
Defined.

(** ** The order on tokens *)

Lemma Qgt_bool_true x y : Qgt_bool x y = true ↔ (y < x)%Q.
Proof.
  unfold Qgt_bool. rewrite (Qgt_alt x y).
  destruct (x ?= y)%Q; split; congruence.
Qed.

Lemma Qgt_bool_false x y : Qgt_bool x y = false ↔ (x <= y)%Q.
Proof.
  rewrite <- not_true_iff_false, Qgt_bool_true. split.
  - apply Qnot_lt_le.
  - intros Hle Hlt. by apply (Qlt_not_le _ _ Hlt).
Qed.

(** X8.  The comparison operator of tokens is a strict weak order, as a
    comparator must be: no token is below itself, the relation is transitive,
    and two tokens are incomparable exactly when their costs are equal, so
    that incomparability is transitive too. *)
Theorem Token_lt_strict_weak_order :
  (∀ t, Token_lt t t = false) ∧
  (∀ t1 t2 t3,
     Token_lt t1 t2 = true → Token_lt t2 t3 = true → Token_lt t1 t3 = true) ∧
  (∀ t1 t2,
     Token_lt t1 t2 = false ∧ Token_lt t2 t1 = false
     ↔ (cost_ t1 == cost_ t2)%Q) ∧
  (∀ t1 t2 t3,
     Token_lt t1 t2 = false → Token_lt t2 t1 = false →
     Token_lt t2 t3 = false → Token_lt t3 t2 = false →
     Token_lt t1 t3 = false ∧ Token_lt t3 t1 = false).
Proof.
  unfold Token_lt. split; [|split; [|split]].
  - intros t. apply Qgt_bool_false, Qle_refl.
  - intros t1 t2 t3. rewrite !Qgt_bool_true. intros H12 H23.
    by apply Qlt_trans with (cost_ t2).
  - intros t1 t2. rewrite !Qgt_bool_false. split.
    + intros [H12 H21]. by apply Qle_antisym.
    + intros Heq. rewrite Heq. split; apply Qle_refl.
  - intros t1 t2 t3. rewrite !Qgt_bool_false. intros H12 H21 H23 H32.
    split; by eapply Qle_trans.
Qed.

Lemma Token_lt_strict_weak_order_witness :
  let tok (c : Q) := mkToken (mkArc 0 0 0 false) None 1 c in
  Token_lt (tok 3%Q) (tok 1%Q) = true.
Proof.
  intros tok.
  refine (proj1 (proj2 Token_lt_strict_weak_order)
            (tok 3%Q) (tok 2%Q) (tok 1%Q) _ _);
    reflexivity.
Defined.

(** ** Initialising a recycled record *)

(** X9.  [Init] leaves nothing of what the record held before: on a record
    taken back from the pool it gives the same heap whatever the record's
    previous arc, predecessor, count and cost were (the predecessor being
    another token). *)
Theorem Token_Init_overwrites this arc ac prev (h : gmap addr Token) t1 :
  is_Some (h !! this) → prev ≠ Some this →
  Token_Init this arc ac prev (<[this := t1]> h) = Token_Init this arc ac prev h ∧
  Token_Init_noac this arc prev (<[this := t1]> h) = Token_Init_noac this arc prev h.
Proof.
  intros [t0 Ht0] Hself.
  assert (<[this := t1]> h !! this = Some t1) as Ht1 by apply lookup_insert_eq.
  destruct prev as [p|].
  - assert (this ≠ p) as Hne by congruence.
    destruct (h !! p) as [tp|] eqn:Hp.
    + rewrite (Token_Init_chained _ _ _ _ _ t1 tp Hne),
        (Token_Init_noac_chained _ _ _ _ t1 tp Hne)
        by first [done | by rewrite lookup_insert_ne].
      rewrite (Token_Init_chained _ _ _ _ _ t0 tp Hne),
        (Token_Init_noac_chained _ _ _ _ t0 tp Hne) by done.
      by rewrite !insert_over_raw.
    + rewrite !Token_Init_dangling, !Token_Init_noac_dangling;
        [done|by right|right; by rewrite lookup_insert_ne
        |by right|right; by rewrite lookup_insert_ne].
  - rewrite (Token_Init_root _ _ _ _ _ Ht1), (Token_Init_noac_root _ _ _ _ Ht1),
      (Token_Init_root _ _ _ _ _ Ht0), (Token_Init_noac_root _ _ _ _ Ht0).
    by rewrite !insert_insert_eq.
Qed.

Lemma Token_Init_overwrites_witness :
  let stale := mkToken (mkArc 9 9 9 true) (Some 4) 0 100 in
  let blank := mkToken (mkArc 0 0 0 false) None 1 0 in
  Token_Init 0 (mkArc 1 7 1 true) 2 None {[ 0 := stale ]}
  = Token_Init 0 (mkArc 1 7 1 true) 2 None {[ 0 := blank ]}.
Proof.
  intros stale blank.
  pose proof (proj1 (Token_Init_overwrites 0 (mkArc 1 7 1 true) 2 None
                       {[ 0 := blank ]} stale
                       ltac:(by eexists) ltac:(done))) as H.
  rewrite insert_singleton_eq in H. exact H.
Defined.

(** X10.  [Init] works through its two pointers and through nothing else:
    it succeeds exactly when [this] and, if given, [prev] are live, and then
    the live addresses are the same as before: it neither allocates nor
    frees. *)
Theorem Token_Init_live_pointers this arc ac prev (h : gmap addr Token) :
  let live := is_Some (h !! this) ∧ ∀ p, prev = Some p → is_Some (h !! p) in
  (is_Some (Token_Init this arc ac prev h) ↔ live) ∧
  (is_Some (Token_Init_noac this arc prev h) ↔ live) ∧
  ∀ h', Token_Init this arc ac prev h = Some h' ∨
        Token_Init_noac this arc prev h = Some h' →
        ∀ a, is_Some (h' !! a) ↔ is_Some (h !! a).
Proof.
  cbv zeta.
  assert (∀ (m : gmap addr Token) i x a,
            is_Some (m !! i) → is_Some (<[i := x]> m !! a) ↔ is_Some (m !! a))
    as Hsame.
  { intros m i x a Hi. destruct (decide (i = a)) as [->|Hne].
    - rewrite lookup_insert_eq. split; [done|by eexists].
    - by rewrite lookup_insert_ne. }
  destruct (h !! this) as [t0|] eqn:Ht0; cycle 1.
  { unfold Token_Init, Token_Init_noac. rewrite (update_None _ _ _ Ht0). cbn.
    split; [|split].
    - split; [by intros [? ?]|by intros [[? ?] _]].
    - split; [by intros [? ?]|by intros [[? ?] _]].
    - by intros h' [?|?]. }
  destruct prev as [p|].
  - destruct (decide (this = p)) as [<-|Hne].
    + rewrite (Token_Init_self _ _ _ _ _ Ht0), (Token_Init_noac_self _ _ _ _ Ht0).
      split; [|split].
      * split; [intros _|by eexists]. split; [by eexists|].
        intros ? [= <-]. by eexists.
      * split; [intros _|by eexists]. split; [by eexists|].
        intros ? [= <-]. by eexists.
      * intros h' [[= <-]|[= <-]] a; apply Hsame; by eexists.
    + destruct (h !! p) as [tp|] eqn:Hp.
      * rewrite (Token_Init_chained _ _ _ _ _ _ _ Hne Ht0 Hp),
          (Token_Init_noac_chained _ _ _ _ _ _ Hne Ht0 Hp).
        split; [|split].
        -- split; [intros _|by eexists]. split; [by eexists|].
           intros ? [= <-]. by eexists.
        -- split; [intros _|by eexists]. split; [by eexists|].
           intros ? [= <-]. by eexists.
        -- intros h' [[= <-]|[= <-]] a.
           all: rewrite Hsame by (rewrite lookup_insert_ne by done; by eexists).
           all: apply Hsame; by eexists.
      * rewrite Token_Init_dangling, Token_Init_noac_dangling by auto.
        split; [|split].
        -- split; [by intros [? ?]|]. intros [_ Hlive].
           destruct (Hlive p eq_refl) as [? ?]. congruence.
        -- split; [by intros [? ?]|]. intros [_ Hlive].
           destruct (Hlive p eq_refl) as [? ?]. congruence.
        -- by intros h' [?|?].
  - rewrite (Token_Init_root _ _ _ _ _ Ht0), (Token_Init_noac_root _ _ _ _ Ht0).
    split; [|split].
    + split; [intros _|by eexists]. split; [by eexists|done].
    + split; [intros _|by eexists]. split; [by eexists|done].
    + intros h' [[= <-]|[= <-]] a; apply Hsame; by eexists.
Qed.

Lemma Token_Init_live_pointers_witness :
  let blank := mkToken (mkArc 0 0 0 false) None 1 0 in
  ¬ is_Some (Token_Init 0 (mkArc 1 7 1 true) 2 (Some 5) {[ 0 := blank ]}).
Proof.
  intros blank H.
  apply (proj1 (Token_Init_live_pointers 0 (mkArc 1 7 1 true) 2 (Some 5)
                  {[ 0 := blank ]})) in H.
  destruct H as [_ H]. destruct (H 5 eq_refl) as [t Ht]. by vm_compute in Ht.
Defined.

(** ** Clearing the active tokens *)

(** A release recycles, besides [tok] itself, only tokens some live token
    pointed to. *)
Lemma TokenDelete_loop_destroyed_referred fuel : ∀ tok st st' b,
  TokenDelete_loop fuel tok st = Done st' →
  is_Some (heap st !! b) → heap st' !! b = None → b ≠ tok →
  ∃ a ta, heap st !! a = Some ta ∧ prev_ ta = Some b.
Proof.
  induction fuel as [|fuel IH]; intros tok st st' b; [done|].
  destruct (heap st !! tok) as [t|] eqn:Ht; [|by cbn; rewrite Ht].
  rewrite (TokenDelete_loop_S _ _ _ _ Ht).
  destruct (ref_count_ t =? 1)%Z.
  - destruct (prev_ t) as [p|] eqn:Hp.
    + intros Hloop [tb Hb] Hgone Hne.
      destruct (decide (b = p)) as [->|Hbp]; [by exists tok, t|].
      destruct (IH p _ _ b Hloop) as (a & ta & Ha & Hprev); [|done..|].
      { cbn. rewrite lookup_delete_ne by done. by eexists. }
      exists a, ta. split; [|done]. cbn in Ha.
      destruct (decide (a = tok)) as [->|].
      * by rewrite lookup_delete_eq in Ha.
      * by rewrite lookup_delete_ne in Ha.
    + intros [= <-] [tb Hb] Hgone Hne. cbn in Hgone.
      rewrite lookup_delete_ne in Hgone by done. congruence.
  - destruct (1 <? ref_count_ t)%Z; [|done].
    intros [= <-] [tb Hb] Hgone Hne. cbn in Hgone.
    rewrite lookup_insert_ne in Hgone by done. congruence.
Qed.

(** Under the discipline, a token still held from outside after a release is
    still live. *)
Lemma TokenDelete_loop_held fuel tok st st' owners depth b :
  counted owners depth (heap st) →
  TokenDelete_loop fuel tok st = Done st' →
  is_Some (heap st !! b) → 1 ≤ release_owner tok owners b →
  is_Some (heap st' !! b).
Proof.
  intros Hc Hloop [tb Hb] Hheld.
  destruct (heap st' !! b) as [tb'|] eqn:Hb'; [by eexists|]. exfalso.
  destruct (TokenDelete_loop_destroyed _ _ _ _ _ _ Hloop Hb Hb') as [Hone _].
  pose proof (counted_refs _ _ _ Hc b tb Hb) as Hrc.
  unfold release_owner in Hheld.
  destruct (decide (b = tok)) as [->|Hne]; [lia|].
  destruct (TokenDelete_loop_destroyed_referred _ _ _ _ _ Hloop
              (ex_intro _ tb Hb) Hb' Hne) as (a & ta & Ha & Hprev).
  assert (referrers (heap st) b ≠ 0); [|lia].
  intros Hz. by apply (proj1 (referrers_zero _ _) Hz a ta Ha).
Qed.

Lemma ClearToks_pool_grows list : ∀ st st' a,
  ClearToks list st = Done st' → a ∈ pool st → a ∈ pool st'.
Proof.
  induction list as [|tok rest IH]; intros st st' a; cbn [ClearToks].
  - by intros [= <-].
  - destruct (TokenDelete tok st) as [st1| | |] eqn:Hdel; [|done..].
    cbn [mbind outcome_bind]. intros Hrest Ha. eapply IH; [done|].
    by eapply TokenDelete_loop_pool_grows.
Qed.

(** X11.  Clearing the active tokens reclaims everything: when the drained
    list names each token once and its entries are the only outside holders
    of references, [ClearToks] returns, the heap ends empty and every record
    that was live is in the pool. *)
Theorem ClearToks_reclaims_all list : ∀ st owners depth,
  counted owners depth (heap st) → NoDup list →
  (∀ a, a ∈ list → is_Some (heap st !! a)) →
  (∀ a, is_Some (heap st !! a) → owners a = if decide (a ∈ list) then 1 else 0) →
  ∃ st', ClearToks list st = Done st' ∧ heap st' = ∅ ∧
         ∀ a, is_Some (heap st !! a) → a ∈ pool st'.
Proof.
  induction list as [|tok rest IH]; intros st owners depth Hc Hnd Hlive Hown;
    cbn [ClearToks].
  - exists st. split; [done|].
    assert (heap st = ∅) as Hempty.
    { apply (counted_unowned_empty _ _ _ Hc). intros a Ha.
      rewrite (Hown a Ha). rewrite decide_False; [done|apply not_elem_of_nil]. }
    split; [done|]. intros a [t Ha]. by rewrite Hempty, lookup_empty in Ha.
  - apply NoDup_cons in Hnd as [Hnotin Hnd].
    destruct (Hlive tok (list_elem_of_here _ _)) as [t Ht].
    assert (owners tok = 1) as Hown1.
    { rewrite (Hown tok) by (by eexists).
      rewrite decide_True; [done|apply list_elem_of_here]. }
    destruct (TokenDelete_loop_counted (S (size (heap st))) tok st owners depth t)
      as (st1 & Hloop & Hc1); [lia|done|done|lia|].
    unfold TokenDelete. rewrite Hloop. cbn [mbind outcome_bind].
    destruct (IH st1 (release_owner tok owners) depth Hc1 Hnd)
      as (st' & Hclear & Hempty & Hpool).
    + intros a Ha. assert (a ≠ tok) as Hne by (by intros ->).
      apply (TokenDelete_loop_held _ tok st st1 owners depth a Hc Hloop);
        [by apply Hlive, list_elem_of_further|].
      unfold release_owner. rewrite decide_False by done.
      rewrite (Hown a) by (by apply Hlive, list_elem_of_further).
      rewrite decide_True; [done|by apply list_elem_of_further].
    + intros a [t1 Ha].
      destruct (TokenDelete_loop_survivors _ _ _ _ _ _ Hloop Ha) as (t0 & Ht0 & _).
      unfold release_owner. rewrite (Hown a) by (by eexists).
      destruct (decide (a = tok)) as [->|Hne].
      * rewrite decide_True by apply list_elem_of_here.
        by rewrite decide_False.
      * destruct (decide (a ∈ rest)) as [Hin|Hout].
        -- rewrite decide_True; [done|by apply list_elem_of_further].
        -- rewrite decide_False; [done|]. by intros [?|?]%elem_of_cons.
    + exists st'. split; [done|]. split; [done|]. intros a [ta Ha].
      destruct (heap st1 !! a) as [t1|] eqn:Ha1.
      * apply Hpool. by eexists.
      * eapply ClearToks_pool_grows; [done|].
        by eapply (TokenDelete_loop_destroyed _ _ _ _ a ta Hloop).
Qed.

Lemma ClearToks_reclaims_all_witness :
  let root := mkToken (mkArc 0 0 0 false) None 1 0 in
  let tip := mkToken (mkArc 1 7 1 true) (Some 0) 1 3 in
  let st := mkStore (<[1 := tip]> (<[0 := incr_ref_count root]> {[ 0 := root ]})) [] in
  ∃ st', ClearToks [0; 1] st = Done st' ∧ heap st' = ∅ ∧
         ∀ a, is_Some (heap st !! a) → a ∈ pool st'.
Proof.
  intros root tip st. destruct chain_counted as [depth Hc].
  apply (ClearToks_reclaims_all [0; 1] st _ depth Hc).
  - apply NoDup_cons. split; [|apply NoDup_singleton].
    by intros ?%list_elem_of_singleton.
  - intros a [->|[->|?%elem_of_nil]%elem_of_cons]%elem_of_cons;
      [by eexists|by eexists|done].
  - intros a _. unfold first_owner.
    destruct (decide (a = 1)) as [->|];
      [by rewrite decide_True by apply list_elem_of_further, list_elem_of_here|].
    destruct (decide (a = 0)) as [->|];
      [by rewrite decide_True by apply list_elem_of_here|].
    rewrite decide_False; [done|].
    by intros [?|[?|?%elem_of_nil]%elem_of_cons]%elem_of_cons.
Defined.
